(** * TM88IV: Japanese and emoji printing on an ESC/POS receipt printer

    A shallow embedding of [tm88iv/tm88iv.py] (class [TM88IV]) and the
    properties of its glyph-slot cache, bitmap packer, command framing
    and character classification.

    Python values are modelled as follows.
    - [str] is a list of Unicode code points, [bytes] a list of [byte].
    - [collections.OrderedDict] is an association list in insertion
      order (module [OrderedDict]).
    - The object [self] is the record [TM88IV]; methods are functions in
      the state-and-exception monad [M], so that a mutation made before
      an exception is raised stays visible.
    - [self._raw] appends a [Raw] event to the log of the printer; the
      rasterisation done through Pillow appends a [DrawText] event.
    - Pillow's text rendering, [emoji.is_emoji] and the cp932 codec are
      external and enter as the record [Externals]. *)

From Stdlib Require Import List NArith ZArith Lia String Ascii Bool PeanoNat.
From Stdlib Require Import Strings.Byte.
From Stdlib Require Import Sorting.Permutation.
Import ListNotations.


(** ** Python values *)

Module Py.

Definition codepoint := N.
Definition str := list codepoint.
Definition bytes := list byte.

Inductive exn := TypeError | ValueError | OverflowError | KeyError.

Inductive result (A : Type) : Type :=
| Ok (a : A)
| Raise (e : exn).
Arguments Ok {A} a.
Arguments Raise {A} e.

Definition rbind {A B} (r : result A) (k : A -> result B) : result B :=
  match r with
  | Ok a => k a
  | Raise e => Raise e
  end.

Fixpoint str_eqb (a b : str) : bool :=
  match a, b with
  | [], [] => true
  | x :: a', y :: b' => N.eqb x y && str_eqb a' b'
  | _, _ => false
  end.

Fixpoint bytes_eqb (a b : bytes) : bool :=
  match a, b with
  | [], [] => true
  | x :: a', y :: b' => Byte.eqb x y && bytes_eqb a' b'
  | _, _ => false
  end.

(** [s.isascii()] *)
Definition isascii (s : str) : bool := forallb (fun c => N.ltb c 128) s.

(** [s in l] for a list [l] of strings *)
Definition contains (l : list str) (s : str) : bool := existsb (str_eqb s) l.

(** Operands of [+]: the source mixes [bytes] and [str] literals. *)
Inductive value :=
| VBytes (b : bytes)
| VStr (s : str).

Definition add (a b : value) : result value :=
  match a, b with
  | VBytes x, VBytes y => Ok (VBytes (x ++ y))
  | VStr x, VStr y => Ok (VStr (x ++ y))
  | _, _ => Raise TypeError
  end.

(** [a0 + a1 + ... + an], evaluated left to right *)
Fixpoint add_all (acc : value) (rest : list value) : result value :=
  match rest with
  | [] => Ok acc
  | v :: rest' => rbind (add acc v) (fun acc' => add_all acc' rest')
  end.

(** [int(s, 2)] on the digit strings the packer builds *)
Fixpoint int_base2_from (acc : N) (s : string) : result N :=
  match s with
  | EmptyString => Ok acc
  | String c tl =>
      if Ascii.eqb c "0"%char then int_base2_from (2 * acc) tl
      else if Ascii.eqb c "1"%char then int_base2_from (2 * acc + 1) tl
      else Raise ValueError
  end.

Definition int_base2 (s : string) : result N :=
  match s with
  | EmptyString => Raise ValueError
  | _ => int_base2_from 0 s
  end.

(** [n.to_bytes(1, 'big')] *)
Definition to_bytes1 (n : N) : result bytes :=
  match Byte.of_N n with
  | Some b => Ok [b]
  | None => Raise OverflowError
  end.

End Py.

Import Py.

(** ** collections.OrderedDict *)

Module OrderedDict.

Definition t (K V : Type) := list (K * V).

Section Dict.
Context {K V : Type}.
Variable eqb : K -> K -> bool.

Definition items (d : t K V) : list (K * V) := d.
Definition keys (d : t K V) : list K := map fst d.
Definition values (d : t K V) : list V := map snd d.

Fixpoint get (k : K) (d : t K V) : option V :=
  match d with
  | [] => None
  | (k', v) :: d' => if eqb k k' then Some v else get k d'
  end.

Fixpoint remove (k : K) (d : t K V) : t K V :=
  match d with
  | [] => []
  | (k', v) :: d' => if eqb k k' then d' else (k', v) :: remove k d'
  end.

Fixpoint replace (k : K) (v : V) (d : t K V) : t K V :=
  match d with
  | [] => []
  | (k', v') :: d' =>
      if eqb k k' then (k', v) :: d' else (k', v') :: replace k v d'
  end.

(** [d.pop(k)]: the value and the dictionary without the key *)
Definition pop (k : K) (d : t K V) : result (V * t K V) :=
  match get k d with
  | Some v => Ok (v, remove k d)
  | None => Raise KeyError
  end.

(** [d[k] = v]: in place for a key that is present, at the end for a
    new one *)
Definition setitem (k : K) (v : V) (d : t K V) : t K V :=
  match get k d with
  | Some _ => replace k v d
  | None => d ++ [(k, v)]
  end.

End Dict.

End OrderedDict.

(** ** Constants *)

(** [escpos.constants] *)
Definition ESC : bytes := [x1b].
Definition FS : bytes := [x1c].
Definition GS : bytes := [x1d].

Definition USER_AREAS_ASCII : list bytes :=
  [ [x20];[x21];[x22];[x23];[x24];[x25];[x26];[x27];[x28];[x29];[x2a];[x2b];[x2c];[x2d];[x2e];[x2f];
    [x30];[x31];[x32];[x33];[x34];[x35];[x36];[x37];[x38];[x39];[x3a];[x3b];[x3c];[x3d];[x3e];[x3f];
    [x40];[x41];[x42];[x43];[x44];[x45];[x46];[x47];[x48];[x49];[x4a];[x4b];[x4c];[x4d];[x4e];[x4f];
    [x50];[x51];[x52];[x53];[x54];[x55];[x56];[x57];[x58];[x59];[x5a];[x5b];[x5c];[x5d];[x5e];[x5f];
    [x60];[x61];[x62];[x63];[x64];[x65];[x66];[x67];[x68];[x69];[x6a];[x6b];[x6c];[x6d];[x6e];[x6f];
    [x70];[x71];[x72];[x73];[x74];[x75];[x76];[x77];[x78];[x79];[x7a];[x7b];[x7c];[x7d];[x7e] ].

Definition USER_KANJI_AREAS_SJIS : list bytes :=
  [ [x40];[x41];[x42];[x43];[x44];[x45];[x46];[x47];[x48];[x49];[x4a];[x4b];[x4c];[x4d];[x4e];[x4f];
    [x50];[x51];[x52];[x53];[x54];[x55];[x56];[x57];[x58];[x59];[x5a];[x5b];[x5c];[x5d];[x5e];[x5f];
    [x60];[x61];[x62];[x63];[x64];[x65];[x66];[x67];[x68];[x69];[x6a];[x6b];[x6c];[x6d];[x6e];[x6f];
    [x70];[x71];[x72];[x73];[x74];[x75];[x76];[x77];[x78];[x79];[x7a];[x7b];[x7c];[x7d];[x7e];
    [x80];[x81];[x82];[x83];[x84];[x85];[x86];[x87];[x88];[x89];[x8a];[x8b];[x8c];[x8d];[x8e];[x8f];
    [x90];[x91];[x92];[x93];[x94];[x95];[x96];[x97];[x98];[x99];[x9a];[x9b];[x9c];[x9d];[x9e] ].

(** ** The printer object *)

(** What [__init__] reads from [config] and from the four JIS tables. *)
Record Config := mkConfig {
  _jis_x_0201 : list str;
  _jis_x_0208 : list str;
  _jis_x_0212 : list str;
  _jis_x_0213 : list str;
  _emoji_font_file : string;
  _emoji_font_size : Z;
  _emoji_font_adjust_x : Z;
  _emoji_font_adjust_y : Z;
  _kanji_font_file : string;
  _kanji_font_size : Z;
  _kanji_font_adjust_x : Z;
  _kanji_font_adjust_y : Z;
  _fallback_font_file : string;
  _fallback_font_size : Z;
  _fallback_font_adjust_x : Z;
  _fallback_font_adjust_y : Z
}.

(** A slot pool: slot code to the character resident there, [''] for a
    slot never used; the first item is the least recently used. *)
Definition pool := OrderedDict.t bytes str.

Inductive event :=
| Raw (data : bytes)
| DrawText (width height : nat) (font : string) (size adjustX adjustY : Z)
    (gaiji : str).

Record TM88IV := mkTM88IV {
  config : Config;
  _user_areas : pool;
  _gaiji_areas : pool;
  _font_cache : list (string * Z * string);
  _c1 : bytes;
  log : list event
}.

(** A converted 1-bit Pillow image: [getpixel] is 0 or 255. *)
Record Image := mkImage {
  width : nat;
  height : nat;
  getpixel : nat -> nat -> N
}.

(** External collaborators. [draw_text w h font size ax ay gaiji] is the
    canvas after [Image.new], [draw.text] and [convert('1')];
    [cp932 c] is the strict cp932 encoding of one code point. *)
Record Externals := mkExternals {
  draw_text : nat -> nat -> string -> Z -> Z -> Z -> str -> nat -> nat -> N;
  is_emoji : str -> bool;
  cp932 : codepoint -> option bytes
}.

(** ** The monad of methods *)

Definition M (A : Type) : Type := TM88IV -> TM88IV * result A.

Definition ret {A} (a : A) : M A := fun self => (self, Ok a).

Definition bind {A B} (m : M A) (k : A -> M B) : M B :=
  fun self =>
    match m self with
    | (self', Ok a) => k a self'
    | (self', Raise e) => (self', Raise e)
    end.

Definition lift {A} (r : result A) : M A := fun self => (self, r).

Declare Scope method_scope.
Delimit Scope method_scope with method.
Notation "x <- m ;; k" := (bind m (fun x => k))
  (at level 61, m at next level, right associativity) : method_scope.
Notation "m ;; k" := (bind m (fun _ => k))
  (at level 61, right associativity) : method_scope.
Open Scope method_scope.

Fixpoint for_each {A} (l : list A) (body : A -> M unit) : M unit :=
  match l with
  | [] => ret tt
  | a :: l' => body a ;; for_each l' body
  end.

Definition with_user_areas (d : pool) (self : TM88IV) : TM88IV :=
  mkTM88IV (config self) d (_gaiji_areas self) (_font_cache self) (_c1 self)
    (log self).

Definition with_gaiji_areas (d : pool) (self : TM88IV) : TM88IV :=
  mkTM88IV (config self) (_user_areas self) d (_font_cache self) (_c1 self)
    (log self).

Definition with_font_cache (c : list (string * Z * string)) (self : TM88IV)
  : TM88IV :=
  mkTM88IV (config self) (_user_areas self) (_gaiji_areas self) c (_c1 self)
    (log self).

Definition with_log (l : list event) (self : TM88IV) : TM88IV :=
  mkTM88IV (config self) (_user_areas self) (_gaiji_areas self)
    (_font_cache self) (_c1 self) l.

Definition set_user_areas (d : pool) : M unit :=
  fun self => (with_user_areas d self, Ok tt).

Definition set_gaiji_areas (d : pool) : M unit :=
  fun self => (with_gaiji_areas d self, Ok tt).

Definition set_font_cache (c : list (string * Z * string)) : M unit :=
  fun self => (with_font_cache c self, Ok tt).

Definition emit (e : event) : M unit :=
  fun self => (with_log (log self ++ [e]) self, Ok tt).

(** [self._raw(data)] *)
Definition _raw (data : bytes) : M unit := emit (Raw data).

(** The bytes received by the printer: the payloads of [_raw], in order. *)
Fixpoint stream (l : list event) : bytes :=
  match l with
  | [] => []
  | Raw data :: l' => data ++ stream l'
  | DrawText _ _ _ _ _ _ _ :: l' => stream l'
  end.

(** The number of rasterisations *)
Fixpoint draw_count (l : list event) : nat :=
  match l with
  | [] => 0
  | Raw _ :: l' => draw_count l'
  | DrawText _ _ _ _ _ _ _ :: l' => S (draw_count l')
  end.

(** ** The bitmap packer (the loops of [_escpos_register_gaiji]) *)

Fixpoint fold_result {A S} (body : A -> S -> result S) (l : list A) (s : S)
  : result S :=
  match l with
  | [] => Ok s
  | a :: l' => rbind (body a s) (fold_result body l')
  end.

Definition pack_pixel (img : Image) (x y : nat) (st : string * list bytes)
  : result (string * list bytes) :=
  let '(bit_str, byte_array) := st in
  let pixel := getpixel img x y in
  let bit_str :=
    if N.eqb pixel 255 then String.append bit_str "0"
    else String.append bit_str "1" in
  if Nat.eqb ((y + 1) mod 8) 0 then
    rbind (int_base2 bit_str) (fun n =>
    rbind (to_bytes1 n) (fun b =>
    Ok (EmptyString, byte_array ++ [b])))
  else Ok (bit_str, byte_array).

Definition pack_column (img : Image) (x : nat) (st : string * list bytes)
  : result (string * list bytes) :=
  fold_result (pack_pixel img x) (seq 0 (height img)) st.

Definition pack (img : Image) : result (list bytes) :=
  rbind (fold_result (pack_column img) (seq 0 (width img)) (EmptyString, []))
        (fun st => Ok (snd st)).

Section Methods.

Variable ext : Externals.

(** ** _get_font: the cache of font objects, by key *)

Definition font_key_eqb (a b : string * Z * string) : bool :=
  let '(p1, s1, e1) := a in
  let '(p2, s2, e2) := b in
  String.eqb p1 p2 && Z.eqb s1 s2 && String.eqb e1 e2.

Definition _get_font (font_path : string) (size : Z) (encoding : string)
  : M unit :=
  fun self =>
    let key := (font_path, size, encoding) in
    if existsb (font_key_eqb key) (_font_cache self) then (self, Ok tt)
    else set_font_cache (_font_cache self ++ [key]) self.

(** ** _escpos_register_gaiji *)

Definition _escpos_register_gaiji (c2 : bytes) (gaiji : str) (font : string)
  (size adjustX adjustY : Z) (asciiflg : bool) : M unit :=
  let w := if asciiflg then 12 else 24 in
  _get_font font size "unic" ;;
  emit (DrawText w 24 font size adjustX adjustY gaiji) ;;
  let img :=
    mkImage w 24 (draw_text ext w 24 font size adjustX adjustY gaiji) in
  byte_array <- lift (pack img) ;;
  (if asciiflg then
     _raw (ESC ++ ["&"%byte] ++ [x03] ++ c2 ++ c2) ;;
     _raw [x0c]
   else
     fun self => _raw (FS ++ ["2"%byte] ++ _c1 self ++ c2) self) ;;
  for_each byte_array _raw.

(** ** _define_gaiji *)

(** [for k, v in areas.items(): if v == gaiji: ...]: the key of the
    first item whose value is [gaiji] *)
Fixpoint find_gaiji (gaiji : str) (items : list (bytes * str))
  : option bytes :=
  match items with
  | [] => None
  | (k, v) :: items' =>
      if str_eqb v gaiji then Some k else find_gaiji gaiji items'
  end.

Definition expect_bytes (v : value) : M bytes :=
  match v with
  | VBytes b => ret b
  | VStr _ => lift (Raise TypeError)
  end.

Definition user_areas_pop (k : bytes) : M str :=
  fun self =>
    match OrderedDict.pop bytes_eqb k (_user_areas self) with
    | Ok (v, d) => (with_user_areas d self, Ok v)
    | Raise e => (self, Raise e)
    end.

Definition user_areas_setitem (k : bytes) (v : str) : M unit :=
  fun self =>
    set_user_areas (OrderedDict.setitem bytes_eqb k v (_user_areas self))
      self.

Definition gaiji_areas_pop (k : bytes) : M str :=
  fun self =>
    match OrderedDict.pop bytes_eqb k (_gaiji_areas self) with
    | Ok (v, d) => (with_gaiji_areas d self, Ok v)
    | Raise e => (self, Raise e)
    end.

Definition gaiji_areas_setitem (k : bytes) (v : str) : M unit :=
  fun self =>
    set_gaiji_areas (OrderedDict.setitem bytes_eqb k v (_gaiji_areas self))
      self.

(** Each [for] loop of the source returns in the iteration that first
    mutates the dictionary, so the second loop is its first item. The
    string literal in the first [return] of the single-byte branch has
    no [b] prefix: it is a [str]. *)
Definition _define_gaiji (gaiji : str) (font : string)
  (size adjustX adjustY : Z) (asciiflg : bool) : M bytes :=
  if asciiflg then
    fun self =>
      match find_gaiji gaiji (OrderedDict.items (_user_areas self)) with
      | Some k =>
          (v <- user_areas_pop k ;;
           user_areas_setitem k v ;;
           r <- lift (add_all (VBytes ESC)
                        [VBytes ["%"%byte]; VStr [32%N; 1%N]; VBytes k;
                         VBytes ESC; VBytes ["%"%byte]; VBytes [x00]]) ;;
           expect_bytes r) self
      | None =>
          match OrderedDict.items (_user_areas self) with
          | (k, _) :: _ =>
              (_ <- user_areas_pop k ;;
               user_areas_setitem k gaiji ;;
               _escpos_register_gaiji k gaiji font size adjustX adjustY
                 asciiflg ;;
               ret (ESC ++ ["%"%byte] ++ [x01] ++ k ++ ESC ++ ["%"%byte]
                      ++ [x00])) self
          | [] => ret [] self
          end
      end
  else
    fun self =>
      match find_gaiji gaiji (OrderedDict.items (_gaiji_areas self)) with
      | Some k =>
          (v <- gaiji_areas_pop k ;;
           gaiji_areas_setitem k v ;;
           (fun self' => ret (_c1 self' ++ k) self')) self
      | None =>
          match OrderedDict.items (_gaiji_areas self) with
          | (k, _) :: _ =>
              (_ <- gaiji_areas_pop k ;;
               gaiji_areas_setitem k gaiji ;;
               _escpos_register_gaiji k gaiji font size adjustX adjustY
                 asciiflg ;;
               (fun self' => ret (_c1 self' ++ k) self')) self
          | [] => ret [] self
          end
      end.

(** ** jptext2 *)

(** [c.encode('cp932', 'ignore')]: code points the codec cannot encode
    are left out. *)
Definition encode_cp932_ignore (s : str) : bytes :=
  flat_map (fun c => match cp932 ext c with Some b => b | None => [] end) s.

Record params := mkParams {
  p_font : string;
  p_size : Z;
  p_adjustX : Z;
  p_adjustY : Z;
  p_asciiflg : bool
}.

(** The body of [for c in text]. [binary_str] and [call_define] are
    assigned in every iteration before they are read. *)
Definition jptext2_char (c : str) : M unit :=
  fun self =>
    let cfg := config self in
    (if isascii c || contains (_jis_x_0201 cfg) c
        || contains (_jis_x_0208 cfg) c then
       let binary_str := encode_cp932_ignore c in
       _raw binary_str
     else
       let p :=
         if contains (_jis_x_0212 cfg) c || contains (_jis_x_0213 cfg) c
         then mkParams (_kanji_font_file cfg) (_kanji_font_size cfg)
                (_kanji_font_adjust_x cfg) (_kanji_font_adjust_y cfg) false
         else if is_emoji ext c
         then mkParams (_emoji_font_file cfg) (_emoji_font_size cfg)
                (_emoji_font_adjust_x cfg) (_emoji_font_adjust_y cfg) false
         else mkParams (_fallback_font_file cfg) (_fallback_font_size cfg)
                (_fallback_font_adjust_x cfg) (_fallback_font_adjust_y cfg)
                false in
       binary_str <- _define_gaiji c (p_font p) (p_size p) (p_adjustX p)
                       (p_adjustY p) (p_asciiflg p) ;;
       _raw binary_str) self.

Definition mode_bits (dw dh underline : bool) : N * N :=
  let n := 0x00%N in
  let b := 0x00%N in
  let '(n, b) := if dw then (n + 0x04, b + 0x10)%N else (n, b) in
  let '(n, b) := if dh then (n + 0x08, b + 0x20)%N else (n, b) in
  let '(n, b) := if underline then (n + 0x80, b + 0x80)%N else (n, b) in
  (n, b).

Definition jptext2 (text : str) (dw dh underline wbreverse bflg : bool)
  : M unit :=
  let '(n, b) := mode_bits dw dh underline in
  (if negb (N.eqb n 0x00) then
     (if bflg then
        b1 <- lift (to_bytes1 b) ;; _raw (ESC ++ ["!"%byte] ++ b1)
      else ret tt) ;;
     n1 <- lift (to_bytes1 n) ;; _raw (FS ++ ["!"%byte] ++ n1)
   else ret tt) ;;
  (if wbreverse then _raw (GS ++ ["B"%byte] ++ [x01]) else ret tt) ;;
  for_each (map (fun c => [c]) text) jptext2_char ;;
  (if negb (N.eqb n 0x00) then
     (if bflg then _raw (ESC ++ ["!"%byte] ++ [x00]) else ret tt) ;;
     _raw (FS ++ ["!"%byte] ++ [x00])
   else ret tt) ;;
  (if wbreverse then _raw (GS ++ ["B"%byte] ++ [x00]) else ret tt).

End Methods.

(** ** __init__ *)

Definition fresh_areas (areas : list bytes) : pool :=
  fold_left (fun d area => OrderedDict.setitem bytes_eqb area [] d) areas [].

Definition __init__ (cfg : Config) : TM88IV :=
  mkTM88IV cfg
    (fresh_areas USER_AREAS_ASCII)
    (fresh_areas USER_KANJI_AREAS_SJIS)
    []
    [xec]
    [ Raw (ESC ++ ["t"%byte] ++ [x01]);
      Raw (FS ++ ["&"%byte]);
      Raw (FS ++ ["C"%byte] ++ [x01]) ].

(** ** Specification of the packer *)

(** A pixel prints black unless it is white (255). *)
Definition bit_of (img : Image) (x y : nat) : bool :=
  negb (N.eqb (getpixel img x y) 255).

Fixpoint bit_string (l : list bool) : string :=
  match l with
  | [] => EmptyString
  | b :: l' => String (if b then "1" else "0")%char (bit_string l')
  end.

(** Most significant bit first *)
Fixpoint bits_value (acc : N) (l : list bool) : N :=
  match l with
  | [] => acc
  | b :: l' => bits_value (2 * acc + N.b2n b) l'
  end.

(** Rows [8 g .. 8 g + 7] of column [x], top to bottom *)
Definition group_bits (img : Image) (x g : nat) : list bool :=
  map (bit_of img x) (seq (8 * g) 8).

Definition group_byte (img : Image) (x g : nat) : byte :=
  match Byte.of_N (bits_value 0 (group_bits img x g)) with
  | Some b => b
  | None => x00
  end.

Definition column_bytes (img : Image) (groups x : nat) : bytes :=
  map (group_byte img x) (seq 0 groups).

Definition packed (img : Image) (groups : nat) : bytes :=
  flat_map (column_bytes img groups) (seq 0 (width img)).

(** ** Specification of the slot pools *)

(** The chosen slot moves to the most recently used end: the slot that
    holds [gaiji] on a hit, the least recently used slot on a miss. *)
Definition lru_touch (gaiji : str) (d : pool) : pool :=
  match find_gaiji gaiji d with
  | Some k => OrderedDict.remove bytes_eqb k d ++ [(k, gaiji)]
  | None =>
      match d with
      | [] => []
      | (k, _) :: d' => d' ++ [(k, gaiji)]
      end
  end.

(** The characters resident in a pool: the values of used slots *)
Definition occupants (d : pool) : list str :=
  filter (fun v => negb (str_eqb v [])) (OrderedDict.values d).

Record pool_inv (capacity : nat) (d : pool) : Prop := mkPoolInv {
  inv_capacity : List.length d = capacity;
  inv_slots : NoDup (OrderedDict.keys d);
  inv_occupants : NoDup (occupants d)
}.

(** ** Specification of a glyph definition *)

Definition glyph_image (ext : Externals) (gaiji : str) (font : string)
  (size adjustX adjustY : Z) (asciiflg : bool) : Image :=
  let w := if asciiflg then 12 else 24 in
  mkImage w 24 (draw_text ext w 24 font size adjustX adjustY gaiji).

Definition definition_command (c1 c2 : bytes) (asciiflg : bool) : list event :=
  if asciiflg then [Raw (ESC ++ ["&"%byte] ++ [x03] ++ c2 ++ c2); Raw [x0c]]
  else [Raw (FS ++ ["2"%byte] ++ c1 ++ c2)].

Definition definition_events (ext : Externals) (c1 c2 : bytes) (gaiji : str)
  (font : string) (size adjustX adjustY : Z) (asciiflg : bool) : list event :=
  DrawText (if asciiflg then 12 else 24) 24 font size adjustX adjustY gaiji
  :: definition_command c1 c2 asciiflg
  ++ map (fun b => Raw [b])
       (packed (glyph_image ext gaiji font size adjustX adjustY asciiflg) 3).

Definition cache_add (key : string * Z * string)
  (cache : list (string * Z * string)) : list (string * Z * string) :=
  if existsb (font_key_eqb key) cache then cache else cache ++ [key].


(** ** Specification of the print attributes *)

(** The flag byte of [FS !] (double-byte characters) *)
Definition kanji_mode (dw dh underline : bool) : N :=
  ((if dw then 4 else 0) + (if dh then 8 else 0)
   + (if underline then 128 else 0))%N.

(** The flag byte of [ESC !] (single-byte characters) *)
Definition ascii_mode (dw dh underline : bool) : N :=
  ((if dw then 16 else 0) + (if dh then 32 else 0)
   + (if underline then 128 else 0))%N.

Definition byte_of (n : N) : byte :=
  match Byte.of_N n with
  | Some b => b
  | None => x00
  end.

Definition attr_set (dw dh underline wbreverse bflg : bool) : list event :=
  (if dw || dh || underline then
     (if bflg then
        [Raw (ESC ++ ["!"%byte] ++ [byte_of (ascii_mode dw dh underline)])]
      else [])
     ++ [Raw (FS ++ ["!"%byte] ++ [byte_of (kanji_mode dw dh underline)])]
   else [])
  ++ (if wbreverse then [Raw (GS ++ ["B"%byte] ++ [x01])] else []).

Definition attr_clear (dw dh underline wbreverse bflg : bool) : list event :=
  (if dw || dh || underline then
     (if bflg then [Raw (ESC ++ ["!"%byte] ++ [x00])] else [])
     ++ [Raw (FS ++ ["!"%byte] ++ [x00])]
   else [])
  ++ (if wbreverse then [Raw (GS ++ ["B"%byte] ++ [x00])] else []).


(** ** Specification of the character classes *)

Inductive rule := Rule1 | Rule2 | Rule3 | Rule4.

Definition builtin_member (cfg : Config) (c : str) : Prop :=
  isascii c = true \/ In c (_jis_x_0201 cfg) \/ In c (_jis_x_0208 cfg).

Definition kanji_member (cfg : Config) (c : str) : Prop :=
  In c (_jis_x_0212 cfg) \/ In c (_jis_x_0213 cfg).

(** The decision order: a rule matches when it applies and no earlier
    rule does. *)
Definition matches (ext : Externals) (cfg : Config) (c : str) (r : rule)
  : Prop :=
  match r with
  | Rule1 => builtin_member cfg c
  | Rule2 => ~ builtin_member cfg c /\ kanji_member cfg c
  | Rule3 =>
      ~ builtin_member cfg c /\ ~ kanji_member cfg c
      /\ is_emoji ext c = true
  | Rule4 =>
      ~ builtin_member cfg c /\ ~ kanji_member cfg c
      /\ is_emoji ext c <> true
  end.

Inductive classification :=
| BuiltinSingleOrLegacyDoubleByte
| CustomGlyph (font : string) (size offsetX offsetY : Z).

Definition classification_of (cfg : Config) (r : rule) : classification :=
  match r with
  | Rule1 => BuiltinSingleOrLegacyDoubleByte
  | Rule2 =>
      CustomGlyph (_kanji_font_file cfg) (_kanji_font_size cfg)
        (_kanji_font_adjust_x cfg) (_kanji_font_adjust_y cfg)
  | Rule3 =>
      CustomGlyph (_emoji_font_file cfg) (_emoji_font_size cfg)
        (_emoji_font_adjust_x cfg) (_emoji_font_adjust_y cfg)
  | Rule4 =>
      CustomGlyph (_fallback_font_file cfg) (_fallback_font_size cfg)
        (_fallback_font_adjust_x cfg) (_fallback_font_adjust_y cfg)
  end.

(** What the print loop does with a character of a given class *)
Definition emit_classified (ext : Externals) (cl : classification) (c : str)
  : M unit :=
  match cl with
  | BuiltinSingleOrLegacyDoubleByte => _raw (encode_cp932_ignore ext c)
  | CustomGlyph font size offsetX offsetY =>
      binary_str <- _define_gaiji ext c font size offsetX offsetY false ;;
      _raw binary_str
  end.

(** ** Reachable printers *)

Inductive reachable (ext : Externals) : TM88IV -> Prop :=
| reach_init (cfg : Config) : reachable ext (__init__ cfg)
| reach_get_font (self : TM88IV) (font : string) (size : Z) (enc : string) :
    reachable ext self ->
    reachable ext (fst (_get_font font size enc self))
| reach_register (self : TM88IV) (c2 : bytes) (gaiji : str) (font : string)
    (size ax ay : Z) (asciiflg : bool) :
    reachable ext self ->
    reachable ext
      (fst (_escpos_register_gaiji ext c2 gaiji font size ax ay asciiflg self))
| reach_define (self : TM88IV) (gaiji : str) (font : string) (size ax ay : Z)
    (asciiflg : bool) :
    reachable ext self ->
    reachable ext (fst (_define_gaiji ext gaiji font size ax ay asciiflg self))
| reach_jptext2 (self : TM88IV) (text : str)
    (dw dh underline wbreverse bflg : bool) :
    reachable ext self ->
    reachable ext (fst (jptext2 ext text dw dh underline wbreverse bflg self)).

(** ** Sample data for the examples *)

(** A rasteriser that leaves the canvas white, no emoji, and a codec
    that knows ASCII only. *)
Definition blank_ext : Externals :=
  mkExternals
    (fun _ _ _ _ _ _ _ _ _ => 255%N)
    (fun _ => false)
    (fun c => if N.ltb c 128 then option_map (fun b => [b]) (Byte.of_N c)
              else None).

(** YEN SIGN is in JIS X 0201 and has no cp932 encoding. *)
Definition sample_config : Config :=
  mkConfig [[0xA5%N]] [[0x4E9C%N]] [[0x4E02%N]] [[0x4FF1%N]]
    "OpenMoji-black-glyf.ttf" 20 0 0
    "NotoSansJP-Medium.otf" 24 0 (-8)
    "unifont_jp-16.0.03.otf" 24 2 0.

Definition sample_printer : TM88IV := __init__ sample_config.

(** A printer whose pools have no slot *)
Definition no_slot_printer : TM88IV :=
  mkTM88IV sample_config [] [] [] [xec] [].

(** A printer with three double-byte slots *)
Definition three_slot_printer : TM88IV :=
  mkTM88IV sample_config [] (fresh_areas [[x40]; [x41]; [x42]]) [] [xec] [].

Definition black_24x24 : Image := mkImage 24 24 (fun _ _ => 0%N).

Fixpoint distinctb (l : list bytes) : bool :=
  match l with
  | [] => true
  | k :: l' => negb (existsb (bytes_eqb k) l') && distinctb l'
  end.


(** ** References to characters through the double-byte pool *)

Definition access (ext : Externals) (font : string) (size ax ay : Z)
  (gaiji : str) (self : TM88IV) : TM88IV :=
  fst (_define_gaiji ext gaiji font size ax ay false self).

Definition accesses (ext : Externals) (font : string) (size ax ay : Z)
  (gs : list str) (self : TM88IV) : TM88IV :=
  fold_left (fun s g => access ext font size ax ay g s) gs self.


(** A printer whose three double-byte slots are occupied *)
Definition full_three_slot_printer : TM88IV :=
  mkTM88IV sample_config []
    [([x40], [0x4E02%N]); ([x41], [0x4FF1%N]); ([x42], [0x525D%N])]
    [] [xec] [].


(** ** How a printer evolves *)

(** [extends s s']: from [s] to [s'] the configuration and the high byte
    are kept, the log is only appended to, and each pool keeps its slot
    codes. *)
Record extends (s s' : TM88IV) : Prop := mkExtends {
  ext_config : config s' = config s;
  ext_c1 : _c1 s' = _c1 s;
  ext_log : exists evs, log s' = log s ++ evs;
  ext_user_keys :
    Permutation (OrderedDict.keys (_user_areas s))
      (OrderedDict.keys (_user_areas s'));
  ext_gaiji_keys :
    Permutation (OrderedDict.keys (_gaiji_areas s))
      (OrderedDict.keys (_gaiji_areas s'))
}.


(** The rule the print loop applies to a character, as a function *)
Definition builtin_char (cfg : Config) (c : str) : bool :=
  isascii c || contains (_jis_x_0201 cfg) c || contains (_jis_x_0208 cfg) c.

Definition char_rule (ext : Externals) (cfg : Config) (c : str) : rule :=
  if builtin_char cfg c then Rule1
  else if contains (_jis_x_0212 cfg) c || contains (_jis_x_0213 cfg) c
  then Rule2
  else if is_emoji ext c then Rule3
  else Rule4.

(** The bytes [__init__] sends: ESC t 1, FS &, FS C 1 *)
Definition init_stream : bytes :=
  [x1b; "t"%byte; x01; x1c; "&"%byte; x1c; "C"%byte; x01].


(** References to a list of characters, in order, seen from a pool *)
Definition touch_all (gs : list str) (d : pool) : pool :=
  fold_left (fun d g => lru_touch g d) gs d.

(** The characters of a text that need a custom glyph *)
Definition custom_chars (cfg : Config) (text : str) : list str :=
  filter (fun c => negb (builtin_char cfg c)) (map (fun c => [c]) text).


(** ** The start of __init__ and _load_jis_character_set *)

Module Setup.

(** The exceptions of the constructor *)
Inductive exn :=
| FileNotFoundError (file : string)
| IndexError
| ValueError
| OverflowError.

Inductive result (A : Type) : Type :=
| Ok (a : A)
| Raise (e : exn).
Arguments Ok {A} a.
Arguments Raise {A} e.

Definition rbind {A B} (r : result A) (k : A -> result B) : result B :=
  match r with
  | Ok a => k a
  | Raise e => Raise e
  end.

(** What the constructor takes from outside: [os.path.exists], the rows
    a text file yields when iterated (each with its line end), and the
    builtin [int(s, 16)] ([None] for ValueError). *)
Record World := mkWorld {
  path_exists : string -> bool;
  file_rows : string -> list str;
  int16 : str -> option Z
}.

(** The [config] dictionary: an absent key is [None]. [config=None]
    and [{}] are the record of [None]s. *)
Record ConfigDict := mkConfigDict {
  jis0201_file : option string;
  jis0208_file : option string;
  jis0212_file : option string;
  jis0213_file : option string;
  emoji_font_file : option string;
  emoji_font_size : option Z;
  emoji_font_adjust_x : option Z;
  emoji_font_adjust_y : option Z;
  kanji_font_file : option string;
  kanji_font_size : option Z;
  kanji_font_adjust_x : option Z;
  kanji_font_adjust_y : option Z;
  fallback_font_file : option string;
  fallback_font_size : option Z;
  fallback_font_adjust_x : option Z;
  fallback_font_adjust_y : option Z
}.

(** [config.get(key, default)] *)
Definition get {A} (entry : option A) (default : A) : A :=
  match entry with
  | Some v => v
  | None => default
  end.

(** [s.split(sep)] for a separator of one character *)
Fixpoint split_from (sep : codepoint) (field : str) (s : str) : list str :=
  match s with
  | [] => [field]
  | c :: s' =>
      if N.eqb c sep then field :: split_from sep [] s'
      else split_from sep (field ++ [c]) s'
  end.

Definition split (sep : codepoint) (s : str) : list str :=
  split_from sep [] s.

(** [chr(n)] *)
Definition chr (n : Z) : result str :=
  if Z.leb 0 n && Z.leb n 0x10FFFF then Ok [Z.to_N n]
  else if Z.leb (- 2 ^ 31) n && Z.ltb n (2 ^ 31) then Raise ValueError
  else Raise OverflowError.

(** The body of [for row in f] for the column [col] of a table file *)
Definition load_row (w : World) (col : nat) (row : str) (table : list str)
  : result (list str) :=
  match row with
  | [] => Raise IndexError
  | r0 :: _ =>
      if negb (N.eqb r0 35%N) then
        match nth_error (split 9%N row) col with
        | None => Raise IndexError
        | Some c =>
            match int16 w c with
            | None => Raise ValueError
            | Some n => rbind (chr n) (fun ch => Ok (table ++ [ch]))
            end
        end
      else Ok table
  end.

Fixpoint load_rows (w : World) (col : nat) (rows : list str)
  (table : list str) : result (list str) :=
  match rows with
  | [] => Ok table
  | row :: rows' =>
      rbind (load_row w col row table) (load_rows w col rows')
  end.

Definition load_table (w : World) (col : nat) (file : string)
  : result (list str) :=
  load_rows w col (file_rows w file) [].

(** [_load_jis_character_set]: the Unicode column is the second one of
    the JIS X 0201, 0212 and 0213 files and the third of JIS X 0208. *)
Definition _load_jis_character_set (w : World) (f0201 f0208 f0212 f0213 : string)
  : result (list str * list str * list str * list str) :=
  rbind (load_table w 1 f0201) (fun t0201 =>
  rbind (load_table w 2 f0208) (fun t0208 =>
  rbind (load_table w 1 f0212) (fun t0212 =>
  rbind (load_table w 1 f0213) (fun t0213 =>
  Ok (t0201, t0208, t0212, t0213))))).

Definition required_files (config : ConfigDict) : list string :=
  [ get (jis0201_file config) "JIS0201.TXT"%string;
    get (jis0208_file config) "JIS0208.TXT"%string;
    get (jis0212_file config) "JIS0212.TXT"%string;
    get (jis0213_file config) "JIS0213-2004.TXT"%string;
    get (emoji_font_file config) "OpenMoji-black-glyf.ttf"%string;
    get (kanji_font_file config) "NotoSansJP-Medium.otf"%string;
    get (fallback_font_file config) "unifont_jp-16.0.03.otf"%string ].

(** [for file in required_files: if not os.path.exists(file): raise] *)
Fixpoint check_required_files (w : World) (files : list string)
  : result unit :=
  match files with
  | [] => Ok tt
  | file :: files' =>
      if negb (path_exists w file) then Raise (FileNotFoundError file)
      else check_required_files w files'
  end.

(** The result of calling the constructor: a printer, or an exception
    together with what had been sent before it. *)
Inductive outcome :=
| Constructed (self : TM88IV)
| Failed (e : exn) (sent : list event).

(** [TM88IV.__init__]: the file check, then the pools and the three
    commands (through [__init__]), then the tables. The connection set
    up by the base class is not part of the model. *)
Definition TM88IV_init (w : World) (config : ConfigDict) : outcome :=
  match check_required_files w (required_files config) with
  | Raise e => Failed e []
  | Ok _ =>
      match
        _load_jis_character_set w
          (get (jis0201_file config) "JIS0201.TXT"%string)
          (get (jis0208_file config) "JIS0208.TXT"%string)
          (get (jis0212_file config) "JIS0212.TXT"%string)
          (get (jis0213_file config) "JIS0213-2004.TXT"%string)
      with
      | Raise e =>
          Failed e
            [ Raw (ESC ++ ["t"%byte] ++ [x01]);
              Raw (FS ++ ["&"%byte]);
              Raw (FS ++ ["C"%byte] ++ [x01]) ]
      | Ok (t0201, t0208, t0212, t0213) =>
          Constructed
            (__init__
               (mkConfig t0201 t0208 t0212 t0213
                  (get (emoji_font_file config)
                     "OpenMoji-black-glyf.ttf"%string)
                  (get (emoji_font_size config) 20%Z)
                  (get (emoji_font_adjust_x config) 0%Z)
                  (get (emoji_font_adjust_y config) 0%Z)
                  (get (kanji_font_file config)
                     "NotoSansJP-Medium.otf"%string)
                  (get (kanji_font_size config) 24%Z)
                  (get (kanji_font_adjust_x config) 0%Z)
                  (get (kanji_font_adjust_y config) (-8)%Z)
                  (get (fallback_font_file config)
                     "unifont_jp-16.0.03.otf"%string)
                  (get (fallback_font_size config) 24%Z)
                  (get (fallback_font_adjust_x config) 2%Z)
                  (get (fallback_font_adjust_y config) 0%Z)))
      end
  end.

(** A row of a table file that is not a comment *)
Definition data_row (row : str) : bool :=
  match row with
  | [] => false
  | r0 :: _ => negb (N.eqb r0 35%N)
  end.

(** The character a data row gives for the column [col] *)
Definition row_entry (w : World) (col : nat) (row : str) (ch : str) : Prop :=
  exists field n,
    nth_error (split 9%N row) col = Some field
    /\ int16 w field = Some n
    /\ (0 <= n <= 0x10FFFF)%Z
    /\ ch = [Z.to_N n].

(** [c] is the character of a data row of [file] for the column [col]. *)
Definition listed (w : World) (col : nat) (file : string) (c : str) : Prop :=
  exists row,
    In row (file_rows w file) /\ data_row row = true /\ row_entry w col row c.

(** Sample files: the digits after "0x" are read as hexadecimal. *)
Fixpoint hex_digits (acc : Z) (s : str) : option Z :=
  match s with
  | [] => Some acc
  | c :: s' =>
      if N.leb 48%N c && N.leb c 57%N
      then hex_digits (16 * acc + Z.of_N (c - 48)%N) s'
      else if N.leb 65%N c && N.leb c 70%N
      then hex_digits (16 * acc + Z.of_N (c - 55)%N) s'
      else None
  end.

Definition sample_int16 (s : str) : option Z :=
  match s with
  | 48%N :: 120%N :: d :: s' => hex_digits 0 (d :: s')
  | _ => None
  end.

(** "# JIS" / "0x5C<TAB>0x00A5<TAB># YEN SIGN" / a blank line *)
Definition sample_rows_0201 : list str :=
  [ [35; 32; 74; 73; 83; 10];
    [48; 120; 53; 67; 9; 48; 120; 48; 48; 65; 53; 9; 35; 32; 89; 69; 78; 10] ]%N.

Definition blank_row : str := [10%N].

Definition sample_world (broken : bool) : World :=
  mkWorld
    (fun file => negb (String.eqb file "missing.otf"))
    (fun file =>
       if String.eqb file "JIS0201.TXT"
       then (if broken then sample_rows_0201 ++ [blank_row]
             else sample_rows_0201)
       else [])
    sample_int16.

End Setup.


(** * Facts *)

(** ** Python values *)

Lemma str_eqb_eq (a b : str) : str_eqb a b = true <-> a = b.
Proof.
  revert b; induction a as [|x a IH]; intros [|y b]; simpl;
    try (split; congruence).
  rewrite andb_true_iff, N.eqb_eq, IH. split.
  - intros [-> ->]; reflexivity.
  - intros E; injection E; auto.
Qed.

Lemma str_eqb_refl (a : str) : str_eqb a a = true.
Proof. apply str_eqb_eq; reflexivity. Qed.

Lemma str_eqb_neq (a b : str) : str_eqb a b = false <-> a <> b.
Proof.
  rewrite <- str_eqb_eq. destruct (str_eqb a b); split; congruence.
Qed.

Lemma bytes_eqb_eq (a b : bytes) : bytes_eqb a b = true <-> a = b.
Proof.
  revert b; induction a as [|x a IH]; intros [|y b]; simpl;
    try (split; congruence).
  rewrite andb_true_iff, IH. split.
  - intros [E ->]. apply Byte.byte_dec_bl in E. subst; reflexivity.
  - intros E; injection E; intros -> ->. split; [apply Byte.byte_dec_lb|]; auto.
Qed.

Lemma bytes_eqb_refl (a : bytes) : bytes_eqb a a = true.
Proof. apply bytes_eqb_eq; reflexivity. Qed.

Lemma bytes_eqb_neq (a b : bytes) : bytes_eqb a b = false <-> a <> b.
Proof.
  rewrite <- bytes_eqb_eq. destruct (bytes_eqb a b); split; congruence.
Qed.

Lemma contains_In (l : list str) (s : str) : contains l s = true <-> In s l.
Proof.
  unfold contains. rewrite existsb_exists. split.
  - intros [x [Hin E]]. apply str_eqb_eq in E. subst; exact Hin.
  - intros Hin. exists s. split; [exact Hin | apply str_eqb_refl].
Qed.

(** ** The packer *)

Lemma bit_string_app (l1 l2 : list bool) :
  bit_string (l1 ++ l2) = String.append (bit_string l1) (bit_string l2).
Proof. induction l1 as [|b l1 IH]; simpl; [|rewrite IH]; reflexivity. Qed.

Lemma int_base2_from_bits (l : list bool) (acc : N) :
  int_base2_from acc (bit_string l) = Ok (bits_value acc l).
Proof.
  revert acc; induction l as [|b l IH]; intros acc; simpl; [reflexivity|].
  destruct b; simpl; rewrite IH; simpl; f_equal; f_equal; lia.
Qed.

Lemma int_base2_bits (l : list bool) :
  l <> [] -> int_base2 (bit_string l) = Ok (bits_value 0 l).
Proof.
  destruct l as [|b l]; [congruence|]. intros _.
  change (int_base2 (bit_string (b :: l)))
    with (int_base2_from 0 (bit_string (b :: l))).
  apply int_base2_from_bits.
Qed.

Lemma bits_value_split (l : list bool) (acc : N) :
  (bits_value acc l = acc * 2 ^ N.of_nat (List.length l) + bits_value 0 l)%N.
Proof.
  revert acc; induction l as [|b l IH]; intros acc.
  - simpl. lia.
  - cbn [bits_value List.length]. rewrite IH, (IH (2 * 0 + N.b2n b)%N).
    rewrite Nat2N.inj_succ, N.pow_succ_r'. lia.
Qed.

Lemma bits_value_bound (l : list bool) :
  (bits_value 0 l < 2 ^ N.of_nat (List.length l))%N.
Proof.
  induction l as [|b l IH].
  - simpl. lia.
  - cbn [bits_value List.length]. rewrite bits_value_split.
    rewrite Nat2N.inj_succ, N.pow_succ_r'.
    destruct b; simpl N.b2n; lia.
Qed.

Lemma bits_value_testbit (l : list bool) (i : nat) (b : bool) :
  nth_error l i = Some b ->
  N.testbit (bits_value 0 l) (N.of_nat (List.length l - 1 - i)) = b.
Proof.
  revert i; induction l as [|c l IH]; intros i H.
  - destruct i; discriminate.
  - cbn [bits_value List.length]. rewrite bits_value_split.
    pose proof (bits_value_bound l) as Hb.
    replace (2 * 0 + N.b2n c)%N with (N.b2n c) by lia.
    destruct i as [|i]; simpl in H.
    + injection H as ->.
      replace (S (List.length l) - 1 - 0) with (List.length l) by lia.
      rewrite N.add_comm, N.testbit_eqb.
      rewrite N.div_add by (apply N.pow_nonzero; lia).
      rewrite N.div_small by exact Hb.
      destruct b; reflexivity.
    + assert (Hi : i < List.length l) by (apply nth_error_Some; congruence).
      replace (S (List.length l) - 1 - S i) with (List.length l - 1 - i)
        by lia.
      rewrite <- (IH i H).
      rewrite N.add_comm, !N.testbit_eqb.
      replace (N.of_nat (List.length l))
        with (N.of_nat (S i) + N.of_nat (List.length l - 1 - i))%N by lia.
      rewrite N.pow_add_r, N.mul_assoc.
      rewrite N.div_add by (apply N.pow_nonzero; lia).
      rewrite Nat2N.inj_succ, N.pow_succ_r'.
      rewrite <- N.Div0.add_mod_idemp_r.
      replace (N.b2n c * (2 * 2 ^ N.of_nat i))%N
        with ((N.b2n c * 2 ^ N.of_nat i) * 2)%N by lia.
      rewrite N.Div0.mod_mul, N.add_0_r. reflexivity.
Qed.

Lemma fold_result_app {A S} (body : A -> S -> result S) (l1 l2 : list A)
  (s : S) :
  fold_result body (l1 ++ l2) s
  = rbind (fold_result body l1 s) (fold_result body l2).
Proof.
  revert s; induction l1 as [|a l1 IH]; intros s; simpl; [reflexivity|].
  destruct (body a s) as [s'|e]; simpl; [apply IH | reflexivity].
Qed.

Lemma pack_pixel_bits (img : Image) (x y : nat) (l : list bool)
  (acc : list bytes) :
  pack_pixel img x y (bit_string l, acc)
  = if Nat.eqb ((y + 1) mod 8) 0 then
      rbind (int_base2 (bit_string (l ++ [bit_of img x y]))) (fun n =>
      rbind (to_bytes1 n) (fun b => Ok (EmptyString, acc ++ [b])))
    else Ok (bit_string (l ++ [bit_of img x y]), acc).
Proof.
  unfold pack_pixel, bit_of. rewrite bit_string_app.
  destruct (N.eqb (getpixel img x y) 255); reflexivity.
Qed.

(** Rows that do not end a group only extend the pending bit string. *)
Lemma pack_rows_pending (img : Image) (x n : nat) :
  forall (y0 : nat) (l : list bool) (acc : list bytes),
    (forall y, y0 <= y < y0 + n -> (y + 1) mod 8 <> 0) ->
    fold_result (pack_pixel img x) (seq y0 n) (bit_string l, acc)
    = Ok (bit_string (l ++ map (bit_of img x) (seq y0 n)), acc).
Proof.
  induction n as [|n IH]; intros y0 l acc H; cbn [seq fold_result map].
  - rewrite app_nil_r. reflexivity.
  - rewrite pack_pixel_bits.
    destruct (Nat.eqb_spec ((y0 + 1) mod 8) 0) as [E|_].
    + exfalso. apply (H y0); [lia | exact E].
    + cbn [rbind]. rewrite IH by (intros y Hy; apply H; lia).
      rewrite <- app_assoc. reflexivity.
Qed.

Lemma to_bytes1_bits (l : list bool) :
  List.length l = 8 ->
  exists b, Byte.of_N (bits_value 0 l) = Some b.
Proof.
  intros Hl. destruct (Byte.of_N (bits_value 0 l)) as [b|] eqn:E.
  - exists b; reflexivity.
  - apply Byte.of_N_None_iff in E.
    pose proof (bits_value_bound l) as Hb. rewrite Hl in Hb.
    change (2 ^ N.of_nat 8)%N with 256%N in Hb. lia.
Qed.

(** Eight rows starting at a multiple of eight give one byte. *)
Lemma pack_group (img : Image) (x g : nat) (acc : list bytes) :
  fold_result (pack_pixel img x) (seq (8 * g) 8) (EmptyString, acc)
  = Ok (EmptyString, acc ++ [[group_byte img x g]]).
Proof.
  change 8 with (S 7) at 2. rewrite seq_S, fold_result_app.
  change EmptyString with (bit_string []).
  rewrite pack_rows_pending.
  - cbn [rbind fold_result]. rewrite pack_pixel_bits.
    replace (8 * g + 7 + 1) with ((g + 1) * 8) by lia.
    rewrite Nat.Div0.mod_mul. cbn [Nat.eqb app].
    replace (map (bit_of img x) (seq (8 * g) 7) ++ [bit_of img x (8 * g + 7)])
      with (group_bits img x g)
      by (unfold group_bits; change 8 with (S 7) at 2;
          rewrite seq_S, map_app; reflexivity).
    rewrite int_base2_bits
      by (unfold group_bits; simpl; discriminate).
    unfold group_byte, to_bytes1. cbn [rbind].
    destruct (to_bytes1_bits (group_bits img x g)) as [b Hb].
    { unfold group_bits. rewrite length_map, length_seq. reflexivity. }
    rewrite Hb. reflexivity.
  - intros y Hy.
    replace (y + 1) with ((y + 1 - 8 * g) + g * 8) by lia.
    rewrite Nat.Div0.mod_add, Nat.mod_small; lia.
Qed.

Lemma pack_groups (img : Image) (x m : nat) :
  forall (g0 : nat) (acc : list bytes),
    fold_result (pack_pixel img x) (seq (8 * g0) (8 * m)) (EmptyString, acc)
    = Ok (EmptyString,
          acc ++ map (fun g => [group_byte img x g]) (seq g0 m)).
Proof.
  induction m as [|m IH]; intros g0 acc.
  - simpl. rewrite app_nil_r. reflexivity.
  - replace (8 * S m) with (8 + 8 * m) by lia.
    rewrite seq_app, fold_result_app, pack_group. cbn [rbind].
    replace (8 * g0 + 8) with (8 * S g0) by lia.
    rewrite IH. cbn [seq map]. rewrite <- app_assoc. reflexivity.
Qed.

Lemma pack_columns (img : Image) (m : nat) (H : height img = 8 * m)
  (w : nat) :
  forall (x0 : nat) (acc : list bytes),
    fold_result (pack_column img) (seq x0 w) (EmptyString, acc)
    = Ok (EmptyString,
          acc ++ map (fun b => [b])
                   (flat_map (column_bytes img m) (seq x0 w))).
Proof.
  induction w as [|w IH]; intros x0 acc.
  - simpl. rewrite app_nil_r. reflexivity.
  - cbn [seq fold_result flat_map]. unfold pack_column at 1. rewrite H.
    change (seq 0 (8 * m)) with (seq (8 * 0) (8 * m)).
    rewrite (pack_groups img x0 m 0 acc). cbn [rbind].
    rewrite IH, map_app, <- app_assoc. unfold column_bytes at 2.
    rewrite map_map. reflexivity.
Qed.

Lemma pack_packed (img : Image) (m : nat) :
  height img = 8 * m -> pack img = Ok (map (fun b => [b]) (packed img m)).
Proof.
  intros H. unfold pack. rewrite (pack_columns img m H). reflexivity.
Qed.

Lemma length_packed_from (img : Image) (m w x0 : nat) :
  List.length (flat_map (column_bytes img m) (seq x0 w)) = w * m.
Proof.
  revert x0; induction w as [|w IH]; intros x0; [reflexivity|].
  cbn [seq flat_map]. rewrite length_app, IH. unfold column_bytes.
  rewrite length_map, length_seq. lia.
Qed.

Lemma nth_packed_from (img : Image) (m w : nat) :
  forall x0 x g, x < w -> g < m ->
    nth_error (flat_map (column_bytes img m) (seq x0 w)) (x * m + g)
    = Some (group_byte img (x0 + x) g).
Proof.
  induction w as [|w IH]; intros x0 x g Hx Hg; [lia|].
  cbn [seq flat_map].
  assert (Hlen : List.length (column_bytes img m x0) = m)
    by (unfold column_bytes; rewrite length_map, length_seq; reflexivity).
  destruct x as [|x].
  - rewrite nth_error_app1 by (rewrite Hlen; lia).
    unfold column_bytes. rewrite nth_error_map.
    simpl. rewrite nth_error_nth' with (d := 0) by (rewrite length_seq; lia).
    rewrite seq_nth by lia. simpl. rewrite Nat.add_0_r. reflexivity.
  - rewrite nth_error_app2 by (rewrite Hlen; simpl; lia).
    rewrite Hlen. replace (S x * m + g - m) with (x * m + g) by (simpl; lia).
    rewrite IH by lia. f_equal. f_equal. lia.
Qed.

Lemma group_byte_testbit (img : Image) (x g i : nat) :
  i < 8 ->
  N.testbit (Byte.to_N (group_byte img x g)) (N.of_nat (7 - i))
  = bit_of img x (8 * g + i).
Proof.
  intros Hi. unfold group_byte.
  assert (Hl : List.length (group_bits img x g) = 8)
    by (unfold group_bits; rewrite length_map, length_seq; reflexivity).
  destruct (to_bytes1_bits (group_bits img x g) Hl) as [b Hb].
  rewrite Hb. apply Byte.to_of_N in Hb. rewrite Hb.
  replace (7 - i) with (List.length (group_bits img x g) - 1 - i)
    by (rewrite Hl; lia).
  apply bits_value_testbit. unfold group_bits.
  rewrite nth_error_map.
  rewrite nth_error_nth' with (d := 0) by (rewrite length_seq; lia).
  rewrite seq_nth by lia. reflexivity.
Qed.

Lemma group_byte_uniform (img : Image) (x g : nat) (c : bool) :
  (forall y, y < 8 * g + 8 -> bit_of img x y = c) ->
  group_byte img x g = if c then xff else x00.
Proof.
  intros H. unfold group_byte, group_bits.
  rewrite (map_ext_in _ (fun _ => c)).
  - destruct c; reflexivity.
  - intros y Hy. apply in_seq in Hy. apply H. lia.
Qed.

Lemma packed_uniform (img : Image) (m : nat) (c : bool) :
  (forall x y, x < width img -> y < 8 * m -> bit_of img x y = c) ->
  packed img m = repeat (if c then xff else x00) (width img * m).
Proof.
  intros H. unfold packed.
  assert (G : forall w x0, x0 + w <= width img ->
            flat_map (column_bytes img m) (seq x0 w)
            = repeat (if c then xff else x00) (w * m)).
  { induction w as [|w IH]; intros x0 Hw; [reflexivity|].
    cbn [seq flat_map]. rewrite IH by lia.
    replace (S w * m) with (m + w * m) by (simpl; lia).
    rewrite repeat_app. f_equal.
    unfold column_bytes.
    rewrite (map_ext_in _ (fun _ => if c then xff else x00)).
    - clear. generalize 0. induction m as [|m IHm]; intros s; simpl;
        [reflexivity | rewrite IHm; reflexivity].
    - intros g Hg. apply in_seq in Hg. apply group_byte_uniform.
      intros y Hy. apply H; lia. }
  apply G. lia.
Qed.

(** ** Lists *)

Lemma NoDup_snoc {A} (l : list A) (a : A) :
  NoDup l -> ~ In a l -> NoDup (l ++ [a]).
Proof.
  induction l as [|x l IH]; simpl; intros Hl Ha.
  - constructor; [intros []|constructor].
  - inversion Hl as [|? ? Hx Hl']; subst. constructor.
    + rewrite in_app_iff. simpl. intros [H|[H|[]]]; [exact (Hx H)|].
      apply Ha. left; symmetry; exact H.
    + apply IH; [exact Hl'|]. intros H; apply Ha; right; exact H.
Qed.

Lemma distinctb_NoDup (l : list bytes) : distinctb l = true -> NoDup l.
Proof.
  induction l as [|k l IH]; simpl; intros H; [constructor|].
  apply andb_true_iff in H. destruct H as [Hk Hl].
  constructor; [|exact (IH Hl)].
  intros Hin. apply negb_true_iff in Hk.
  assert (E : existsb (bytes_eqb k) l = true).
  { apply existsb_exists. exists k. split; [exact Hin|].
    apply bytes_eqb_eq; reflexivity. }
  congruence.
Qed.

(** ** OrderedDict *)

Module OrderedDictFacts.
Import OrderedDict.

Section Facts.
Context {K V : Type}.
Variable eqb : K -> K -> bool.
Hypothesis eqb_eq : forall a b, eqb a b = true <-> a = b.

Lemma eqb_refl (k : K) : eqb k k = true.
Proof. apply eqb_eq; reflexivity. Qed.

Lemma get_notin (k : K) (d : t K V) :
  ~ In k (keys d) -> get eqb k d = None.
Proof.
  induction d as [|[k' v] d IH]; simpl; intros H; [reflexivity|].
  destruct (eqb k k') eqn:E.
  - apply eqb_eq in E. subst. exfalso; apply H; left; reflexivity.
  - apply IH. intros Hin; apply H; right; exact Hin.
Qed.

Lemma get_in (k : K) (d : t K V) :
  In k (keys d) -> exists v, get eqb k d = Some v.
Proof.
  induction d as [|[k' v] d IH]; simpl; intros H; [contradiction|].
  destruct (eqb k k') eqn:E; [exists v; reflexivity|].
  destruct H as [H|H]; [|exact (IH H)].
  subst. rewrite eqb_refl in E. discriminate.
Qed.

Lemma get_middle (k : K) (v : V) (d1 d2 : t K V) :
  ~ In k (keys d1) -> get eqb k (d1 ++ (k, v) :: d2) = Some v.
Proof.
  induction d1 as [|[k' v'] d1 IH]; simpl; intros H.
  - rewrite eqb_refl. reflexivity.
  - destruct (eqb k k') eqn:E.
    + apply eqb_eq in E. subst. exfalso; apply H; left; reflexivity.
    + apply IH. intros Hin; apply H; right; exact Hin.
Qed.

Lemma remove_middle (k : K) (v : V) (d1 d2 : t K V) :
  ~ In k (keys d1) -> remove eqb k (d1 ++ (k, v) :: d2) = d1 ++ d2.
Proof.
  induction d1 as [|[k' v'] d1 IH]; simpl; intros H.
  - rewrite eqb_refl. reflexivity.
  - destruct (eqb k k') eqn:E.
    + apply eqb_eq in E. subst. exfalso; apply H; left; reflexivity.
    + rewrite IH; [reflexivity|].
      intros Hin; apply H; right; exact Hin.
Qed.

Lemma pop_middle (k : K) (v : V) (d1 d2 : t K V) :
  ~ In k (keys d1) -> pop eqb k (d1 ++ (k, v) :: d2) = Ok (v, d1 ++ d2).
Proof.
  intros H. unfold pop. rewrite get_middle, remove_middle by exact H.
  reflexivity.
Qed.

Lemma pop_head (k : K) (v : V) (d : t K V) :
  pop eqb k ((k, v) :: d) = Ok (v, d).
Proof. apply (pop_middle k v [] d). intros []. Qed.

Lemma setitem_fresh (k : K) (v : V) (d : t K V) :
  ~ In k (keys d) -> setitem eqb k v d = d ++ [(k, v)].
Proof. intros H. unfold setitem. rewrite get_notin by exact H. reflexivity. Qed.

Lemma keys_app (d1 d2 : t K V) : keys (d1 ++ d2) = keys d1 ++ keys d2.
Proof. apply map_app. Qed.

Lemma values_app (d1 d2 : t K V) :
  values (d1 ++ d2) = values d1 ++ values d2.
Proof. apply map_app. Qed.

(** In a dictionary the keys of the other items differ from [k]. *)
Lemma nodup_middle (k : K) (v : V) (d1 d2 : t K V) :
  NoDup (keys (d1 ++ (k, v) :: d2)) ->
  ~ In k (keys d1) /\ ~ In k (keys (d1 ++ d2))
  /\ NoDup (keys (d1 ++ d2 ++ [(k, v)])).
Proof.
  intros H. rewrite keys_app in H. simpl in H.
  pose proof (NoDup_remove_1 _ _ _ H) as H1.
  pose proof (NoDup_remove_2 _ _ _ H) as H2.
  rewrite <- keys_app in H1, H2.
  split; [|split].
  - intros Hin. apply H2. rewrite keys_app. apply in_or_app. left; exact Hin.
  - exact H2.
  - rewrite app_assoc, keys_app. simpl.
    apply NoDup_snoc; assumption.
Qed.

End Facts.

End OrderedDictFacts.

Import OrderedDictFacts.

(** ** Monadic loops and the log *)

Lemma with_log_log (self : TM88IV) : with_log (log self) self = self.
Proof. destruct self; reflexivity. Qed.

Lemma for_each_raw (l : bytes) :
  forall self,
    for_each (map (fun b => [b]) l) _raw self
    = (with_log (log self ++ map (fun b => Raw [b]) l) self, Ok tt).
Proof.
  induction l as [|b l IH]; intros self.
  - simpl. rewrite app_nil_r, with_log_log. reflexivity.
  - cbn [map for_each]. unfold bind at 1. unfold _raw at 1, emit.
    rewrite IH. destruct self; unfold with_log; simpl.
    rewrite <- app_assoc. reflexivity.
Qed.

Lemma stream_app (l1 l2 : list event) :
  stream (l1 ++ l2) = stream l1 ++ stream l2.
Proof.
  induction l1 as [|[d|] l1 IH]; simpl; [reflexivity| |exact IH].
  rewrite IH, app_assoc. reflexivity.
Qed.

Lemma stream_raw_bytes (l : bytes) : stream (map (fun b => Raw [b]) l) = l.
Proof. induction l as [|b l IH]; simpl; [|rewrite IH]; reflexivity. Qed.

Lemma draw_count_app (l1 l2 : list event) :
  draw_count (l1 ++ l2) = draw_count l1 + draw_count l2.
Proof.
  induction l1 as [|[d|] l1 IH]; simpl; [reflexivity|exact IH|].
  rewrite IH. reflexivity.
Qed.

(** ** _escpos_register_gaiji *)

Lemma glyph_image_height ext gaiji font size ax ay asciiflg :
  height (glyph_image ext gaiji font size ax ay asciiflg) = 8 * 3.
Proof. reflexivity. Qed.

Lemma _escpos_register_gaiji_spec (ext : Externals) (c2 : bytes) (gaiji : str)
  (font : string) (size ax ay : Z) (asciiflg : bool) (self : TM88IV) :
  _escpos_register_gaiji ext c2 gaiji font size ax ay asciiflg self
  = (with_log
       (log self
        ++ definition_events ext (_c1 self) c2 gaiji font size ax ay asciiflg)
       (with_font_cache (cache_add (font, size, "unic"%string)
                           (_font_cache self)) self),
     Ok tt).
Proof.
  unfold _escpos_register_gaiji, definition_events, definition_command.
  fold (glyph_image ext gaiji font size ax ay asciiflg).
  rewrite (pack_packed _ 3 (glyph_image_height ext gaiji font size ax ay asciiflg)).
  unfold bind at 1. unfold _get_font, cache_add.
  destruct self as [cfg ua ga fc c1 lg]. cbn [_font_cache].
  destruct (existsb (font_key_eqb (font, size, "unic"%string)) fc);
    destruct asciiflg;
    unfold bind, emit, _raw, emit, lift, set_font_cache, with_font_cache,
      with_log; cbn [config _user_areas _gaiji_areas _font_cache _c1 log];
    rewrite for_each_raw; unfold with_log;
    cbn [config _user_areas _gaiji_areas _font_cache _c1 log];
    repeat rewrite <- app_assoc; reflexivity.
Qed.

(** ** _define_gaiji *)

Lemma find_gaiji_Some (gaiji : str) (d : pool) (k : bytes) :
  find_gaiji gaiji d = Some k ->
  exists d1 d2,
    d = d1 ++ (k, gaiji) :: d2 /\ ~ In gaiji (OrderedDict.values d1).
Proof.
  induction d as [|[k' v] d IH]; simpl; [discriminate|].
  destruct (str_eqb v gaiji) eqn:E.
  - intros H; injection H as ->. apply str_eqb_eq in E; subst.
    exists [], d. split; [reflexivity | intros []].
  - intros H. destruct (IH H) as (d1 & d2 & -> & Hn).
    exists ((k', v) :: d1), d2. split; [reflexivity|].
    simpl. intros [Hv|Hin]; [|exact (Hn Hin)].
    subst. rewrite str_eqb_refl in E. discriminate.
Qed.

Lemma find_gaiji_None (gaiji : str) (d : pool) :
  find_gaiji gaiji d = None <-> ~ In gaiji (OrderedDict.values d).
Proof.
  induction d as [|[k v] d IH]; simpl.
  - split; [intros _ [] | reflexivity].
  - destruct (str_eqb v gaiji) eqn:E.
    + apply str_eqb_eq in E. split; [discriminate|].
      intros H; exfalso; apply H; left; exact E.
    + apply str_eqb_neq in E. rewrite IH. split.
      * intros H [Hv|Hin]; [exact (E Hv) | exact (H Hin)].
      * intros H Hin; apply H; right; exact Hin.
Qed.

Lemma find_gaiji_resident (gaiji : str) (d : pool) :
  In gaiji (OrderedDict.values d) -> exists k, find_gaiji gaiji d = Some k.
Proof.
  intros H. destruct (find_gaiji gaiji d) as [k|] eqn:E; [exists k; reflexivity|].
  apply find_gaiji_None in E. contradiction.
Qed.

(** A hit moves the slot found to the end and keeps every item. *)
Lemma lru_touch_hit (gaiji : str) (d1 d2 : pool) (k : bytes) :
  NoDup (OrderedDict.keys (d1 ++ (k, gaiji) :: d2)) ->
  ~ In gaiji (OrderedDict.values d1) ->
  find_gaiji gaiji (d1 ++ (k, gaiji) :: d2) = Some k
  /\ lru_touch gaiji (d1 ++ (k, gaiji) :: d2) = d1 ++ d2 ++ [(k, gaiji)].
Proof.
  intros Hnd Hn.
  assert (F : find_gaiji gaiji (d1 ++ (k, gaiji) :: d2) = Some k).
  { clear Hnd. induction d1 as [|[k' v] d1 IH]; simpl.
    - rewrite str_eqb_refl. reflexivity.
    - destruct (str_eqb v gaiji) eqn:E.
      + apply str_eqb_eq in E. exfalso; apply Hn; left; exact E.
      + apply IH. intros Hin; apply Hn; right; exact Hin. }
  split; [exact F|]. unfold lru_touch. rewrite F.
  destruct (nodup_middle _ _ _ _ Hnd) as (Hk & _ & _).
  rewrite (remove_middle bytes_eqb bytes_eqb_eq) by exact Hk.
  rewrite <- app_assoc. reflexivity.
Qed.

Lemma _define_gaiji_double (ext : Externals) (gaiji : str) (font : string)
  (size ax ay : Z) (self : TM88IV) :
  NoDup (OrderedDict.keys (_gaiji_areas self)) ->
  _define_gaiji ext gaiji font size ax ay false self
  = match find_gaiji gaiji (_gaiji_areas self) with
    | Some k =>
        (with_gaiji_areas (lru_touch gaiji (_gaiji_areas self)) self,
         Ok (_c1 self ++ k))
    | None =>
        match _gaiji_areas self with
        | [] => (self, Ok [])
        | (k, _) :: _ =>
            (with_log
               (log self
                ++ definition_events ext (_c1 self) k gaiji font size ax ay
                     false)
               (with_font_cache
                  (cache_add (font, size, "unic"%string) (_font_cache self))
                  (with_gaiji_areas (lru_touch gaiji (_gaiji_areas self))
                     self)),
             Ok (_c1 self ++ k))
        end
    end.
Proof.
  intros Hnd. unfold _define_gaiji, OrderedDict.items.
  destruct (find_gaiji gaiji (_gaiji_areas self)) as [k|] eqn:F.
  - destruct (find_gaiji_Some _ _ _ F) as (d1 & d2 & Hd & Hn).
    rewrite Hd in Hnd.
    destruct (lru_touch_hit _ _ _ _ Hnd Hn) as [_ Ht].
    destruct (nodup_middle _ _ _ _ Hnd) as (Hk1 & Hk2 & _).
    unfold bind, gaiji_areas_pop. rewrite Hd, Ht.
    rewrite (pop_middle bytes_eqb bytes_eqb_eq) by exact Hk1.
    unfold gaiji_areas_setitem, set_gaiji_areas, with_gaiji_areas, ret.
    cbn [config _user_areas _gaiji_areas _font_cache _c1 log].
    rewrite (setitem_fresh bytes_eqb bytes_eqb_eq) by exact Hk2.
    rewrite <- app_assoc. reflexivity.
  - destruct (_gaiji_areas self) as [|[k v] d'] eqn:Hd; [reflexivity|].
    unfold lru_touch. rewrite F.
    assert (Hk : ~ In k (OrderedDict.keys d'))
      by (simpl in Hnd; inversion Hnd; assumption).
    unfold bind, gaiji_areas_pop. rewrite Hd.
    rewrite (pop_head bytes_eqb bytes_eqb_eq).
    unfold gaiji_areas_setitem, set_gaiji_areas, with_gaiji_areas.
    cbn [config _user_areas _gaiji_areas _font_cache _c1 log app].
    rewrite (setitem_fresh bytes_eqb bytes_eqb_eq) by exact Hk.
    rewrite _escpos_register_gaiji_spec. reflexivity.
Qed.

Lemma _define_gaiji_single (ext : Externals) (gaiji : str) (font : string)
  (size ax ay : Z) (self : TM88IV) :
  NoDup (OrderedDict.keys (_user_areas self)) ->
  _define_gaiji ext gaiji font size ax ay true self
  = match find_gaiji gaiji (_user_areas self) with
    | Some k =>
        (with_user_areas (lru_touch gaiji (_user_areas self)) self,
         Raise TypeError)
    | None =>
        match _user_areas self with
        | [] => (self, Ok [])
        | (k, _) :: _ =>
            (with_log
               (log self
                ++ definition_events ext (_c1 self) k gaiji font size ax ay
                     true)
               (with_font_cache
                  (cache_add (font, size, "unic"%string) (_font_cache self))
                  (with_user_areas (lru_touch gaiji (_user_areas self))
                     self)),
             Ok (ESC ++ ["%"%byte] ++ [x01] ++ k ++ ESC ++ ["%"%byte]
                   ++ [x00]))
        end
    end.
Proof.
  intros Hnd. unfold _define_gaiji, OrderedDict.items.
  destruct (find_gaiji gaiji (_user_areas self)) as [k|] eqn:F.
  - destruct (find_gaiji_Some _ _ _ F) as (d1 & d2 & Hd & Hn).
    rewrite Hd in Hnd.
    destruct (lru_touch_hit _ _ _ _ Hnd Hn) as [_ Ht].
    destruct (nodup_middle _ _ _ _ Hnd) as (Hk1 & Hk2 & _).
    unfold bind, user_areas_pop. rewrite Hd, Ht.
    rewrite (pop_middle bytes_eqb bytes_eqb_eq) by exact Hk1.
    unfold user_areas_setitem, set_user_areas, with_user_areas, ret.
    cbn [config _user_areas _gaiji_areas _font_cache _c1 log].
    rewrite (setitem_fresh bytes_eqb bytes_eqb_eq) by exact Hk2.
    rewrite <- app_assoc. reflexivity.
  - destruct (_user_areas self) as [|[k v] d'] eqn:Hd; [reflexivity|].
    unfold lru_touch. rewrite F.
    assert (Hk : ~ In k (OrderedDict.keys d'))
      by (simpl in Hnd; inversion Hnd; assumption).
    unfold bind, user_areas_pop. rewrite Hd.
    rewrite (pop_head bytes_eqb bytes_eqb_eq).
    unfold user_areas_setitem, set_user_areas, with_user_areas.
    cbn [config _user_areas _gaiji_areas _font_cache _c1 log app].
    rewrite (setitem_fresh bytes_eqb bytes_eqb_eq) by exact Hk.
    rewrite _escpos_register_gaiji_spec. reflexivity.
Qed.

(** ** lru_touch and the pool invariants *)

Lemma occupants_app (d1 d2 : pool) :
  occupants (d1 ++ d2) = occupants d1 ++ occupants d2.
Proof. unfold occupants. rewrite values_app, filter_app. reflexivity. Qed.

Lemma occupants_In (d : pool) (v : str) :
  In v (occupants d) <-> In v (OrderedDict.values d) /\ v <> [].
Proof.
  unfold occupants. rewrite filter_In, negb_true_iff, str_eqb_neq.
  reflexivity.
Qed.

Lemma lru_touch_miss (gaiji : str) (k : bytes) (v : str) (d : pool) :
  ~ In gaiji (OrderedDict.values ((k, v) :: d)) ->
  lru_touch gaiji ((k, v) :: d) = d ++ [(k, gaiji)].
Proof.
  intros H. apply find_gaiji_None in H. unfold lru_touch. rewrite H.
  reflexivity.
Qed.

Lemma lru_touch_inv (n : nat) (gaiji : str) (d : pool) :
  pool_inv n d -> pool_inv n (lru_touch gaiji d).
Proof.
  intros [Hlen Hk Ho].
  destruct (find_gaiji gaiji d) as [k|] eqn:F.
  - destruct (find_gaiji_Some _ _ _ F) as (d1 & d2 & -> & Hn).
    destruct (lru_touch_hit _ _ _ _ Hk Hn) as [_ ->].
    destruct (nodup_middle _ _ _ _ Hk) as (_ & _ & Hk').
    constructor.
    + rewrite <- Hlen. repeat (rewrite length_app; simpl). lia.
    + exact Hk'.
    + rewrite occupants_app in Ho.
      change ((k, gaiji) :: d2) with ([(k, gaiji)] ++ d2) in Ho.
      rewrite occupants_app in Ho. rewrite !occupants_app.
      eapply Permutation_NoDup; [|exact Ho].
      apply Permutation_app_head.
      apply Permutation_app_comm.
  - destruct d as [|[k v] d]; [constructor; assumption|].
    apply find_gaiji_None in F. rewrite (lru_touch_miss _ _ _ _ F).
    constructor.
    + rewrite <- Hlen, length_app. simpl. lia.
    + rewrite keys_app. simpl in *. inversion Hk; subst.
      apply NoDup_snoc; assumption.
    + rewrite occupants_app.
      assert (Ho' : NoDup (occupants d)).
      { change ((k, v) :: d) with ([(k, v)] ++ d) in Ho.
        rewrite occupants_app in Ho.
        exact (NoDup_app_remove_l _ _ Ho). }
      unfold occupants at 2. simpl.
      destruct (str_eqb gaiji []); simpl.
      * rewrite app_nil_r. exact Ho'.
      * apply NoDup_snoc; [exact Ho'|].
        rewrite occupants_In. intros [Hin _]. apply F. right; exact Hin.
Qed.

(** A touch leaves in place a suffix that does not hold the character,
    and appends the touched slot behind it. *)
Lemma lru_touch_suffix (gaiji : str) (p s : pool) :
  p <> [] ->
  NoDup (OrderedDict.keys (p ++ s)) ->
  ~ In gaiji (OrderedDict.values s) ->
  exists p' k,
    lru_touch gaiji (p ++ s) = p' ++ s ++ [(k, gaiji)]
    /\ S (List.length p') = List.length p.
Proof.
  intros Hp Hk Hs.
  destruct (find_gaiji gaiji (p ++ s)) as [k|] eqn:F.
  - destruct (find_gaiji_Some _ _ _ F) as (d1 & d2 & Hd & Hn).
    assert (Hin : In gaiji (OrderedDict.values p)).
    { assert (H : In gaiji (OrderedDict.values (p ++ s))).
      { rewrite Hd, values_app. apply in_or_app. right; left; reflexivity. }
      rewrite values_app in H. apply in_app_or in H.
      destruct H as [H|H]; [exact H | contradiction]. }
    destruct (find_gaiji_resident _ _ Hin) as [k' F'].
    destruct (find_gaiji_Some _ _ _ F') as (p1 & p2 & -> & Hn').
    rewrite <- app_assoc in Hk. cbn [app] in Hk.
    rewrite <- app_assoc. cbn [app].
    destruct (lru_touch_hit _ _ _ _ Hk Hn') as [_ ->].
    exists (p1 ++ p2), k'. split.
    + rewrite <- !app_assoc. reflexivity.
    + rewrite !length_app. simpl. lia.
  - apply find_gaiji_None in F.
    destruct p as [|[k v] p]; [congruence|].
    cbn [app] in *. rewrite (lru_touch_miss _ _ _ _ F).
    exists p, k. split; [rewrite <- app_assoc; reflexivity | reflexivity].
Qed.

Lemma _define_gaiji_double_pool (ext : Externals) (gaiji : str)
  (font : string) (size ax ay : Z) (self : TM88IV) :
  NoDup (OrderedDict.keys (_gaiji_areas self)) ->
  let self' := fst (_define_gaiji ext gaiji font size ax ay false self) in
  _gaiji_areas self' = lru_touch gaiji (_gaiji_areas self)
  /\ _user_areas self' = _user_areas self
  /\ _c1 self' = _c1 self
  /\ config self' = config self.
Proof.
  intros Hk. cbv zeta. rewrite _define_gaiji_double by exact Hk.
  destruct (find_gaiji gaiji (_gaiji_areas self)) as [k|] eqn:F.
  - repeat split.
  - destruct (_gaiji_areas self) as [|[k v] d] eqn:Hd.
    + repeat split. exact Hd.
    + repeat split.
Qed.

Lemma _define_gaiji_single_pool (ext : Externals) (gaiji : str)
  (font : string) (size ax ay : Z) (self : TM88IV) :
  NoDup (OrderedDict.keys (_user_areas self)) ->
  let self' := fst (_define_gaiji ext gaiji font size ax ay true self) in
  _user_areas self' = lru_touch gaiji (_user_areas self)
  /\ _gaiji_areas self' = _gaiji_areas self
  /\ _c1 self' = _c1 self
  /\ config self' = config self.
Proof.
  intros Hk. cbv zeta. rewrite _define_gaiji_single by exact Hk.
  destruct (find_gaiji gaiji (_user_areas self)) as [k|] eqn:F.
  - repeat split.
  - destruct (_user_areas self) as [|[k v] d] eqn:Hd.
    + repeat split. exact Hd.
    + repeat split.
Qed.

(** ** jptext2 *)

Lemma with_log_with_log (l1 l2 : list event) (self : TM88IV) :
  with_log l2 (with_log l1 self) = with_log l2 self.
Proof. reflexivity. Qed.

(** A double-byte registration always returns, and only extends the log. *)
Lemma _define_gaiji_double_total (ext : Externals) (gaiji : str)
  (font : string) (size ax ay : Z) (self : TM88IV) :
  exists self' bs evs,
    _define_gaiji ext gaiji font size ax ay false self = (self', Ok bs)
    /\ log self' = log self ++ evs.
Proof.
  unfold _define_gaiji, OrderedDict.items.
  destruct (find_gaiji gaiji (_gaiji_areas self)) as [k|] eqn:F.
  - destruct (find_gaiji_Some _ _ _ F) as (d1 & d2 & Hd & _).
    destruct (get_in bytes_eqb bytes_eqb_eq k (_gaiji_areas self)) as [v Hv].
    { rewrite Hd, keys_app. apply in_or_app. right; left; reflexivity. }
    unfold bind, gaiji_areas_pop, OrderedDict.pop. rewrite Hv.
    eexists _, _, []. split; [reflexivity|].
    simpl. rewrite app_nil_r. reflexivity.
  - destruct (_gaiji_areas self) as [|[k v] d'] eqn:Hd.
    + exists self, [], []. rewrite app_nil_r. split; reflexivity.
    + unfold bind, gaiji_areas_pop. rewrite Hd.
      rewrite (pop_head bytes_eqb bytes_eqb_eq).
      unfold gaiji_areas_setitem, set_gaiji_areas.
      rewrite _escpos_register_gaiji_spec.
      eexists _, _, _. split; reflexivity.
Qed.

Lemma jptext2_char_total (ext : Externals) (c : str) (self : TM88IV) :
  exists self' evs,
    jptext2_char ext c self = (self', Ok tt) /\ log self' = log self ++ evs.
Proof.
  unfold jptext2_char.
  destruct (isascii c || contains (_jis_x_0201 (config self)) c
            || contains (_jis_x_0208 (config self)) c).
  - eexists _, _. split; reflexivity.
  - match goal with
    | |- context [_define_gaiji ext c ?f ?s ?x ?y ?a] =>
        destruct (_define_gaiji_double_total ext c f s x y self)
          as (self' & bs & evs & E & Hl)
    end.
    unfold bind.
    destruct (contains (_jis_x_0212 (config self)) c
              || contains (_jis_x_0213 (config self)) c);
      [|destruct (is_emoji ext c)];
      cbn [p_font p_size p_adjustX p_adjustY p_asciiflg] in *;
      rewrite E; eexists _, _; (split; [reflexivity|]);
      simpl; rewrite Hl, <- app_assoc; reflexivity.
Qed.

Lemma jptext2_loop_total (ext : Externals) (text : str) :
  forall self,
    exists self' body,
      for_each (map (fun c => [c]) text) (jptext2_char ext) self
      = (self', Ok tt)
      /\ log self' = log self ++ body
      /\ (text = [] -> body = []).
Proof.
  induction text as [|c text IH]; intros self.
  - exists self, []. rewrite app_nil_r. repeat split.
  - cbn [map for_each]. unfold bind at 1.
    destruct (jptext2_char_total ext [c] self) as (s1 & e1 & E1 & H1).
    rewrite E1. destruct (IH s1) as (s2 & e2 & E2 & H2 & _).
    rewrite E2. exists s2, (e1 ++ e2). split; [reflexivity|]. split.
    + rewrite H2, H1, app_assoc. reflexivity.
    + discriminate.
Qed.

Lemma mode_bits_spec (dw dh underline : bool) :
  mode_bits dw dh underline
  = (kanji_mode dw dh underline, ascii_mode dw dh underline).
Proof. destruct dw, dh, underline; reflexivity. Qed.

Lemma kanji_mode_zero (dw dh underline : bool) :
  negb (N.eqb (kanji_mode dw dh underline) 0) = dw || dh || underline.
Proof. destruct dw, dh, underline; reflexivity. Qed.

Lemma to_bytes1_kanji_mode (dw dh underline : bool) :
  to_bytes1 (kanji_mode dw dh underline)
  = Ok [byte_of (kanji_mode dw dh underline)].
Proof. destruct dw, dh, underline; reflexivity. Qed.

Lemma to_bytes1_ascii_mode (dw dh underline : bool) :
  to_bytes1 (ascii_mode dw dh underline)
  = Ok [byte_of (ascii_mode dw dh underline)].
Proof. destruct dw, dh, underline; reflexivity. Qed.

(** The commands issued before the loop *)
Lemma jptext2_prologue (dw dh underline wbreverse bflg : bool)
  (self : TM88IV) :
  ((if negb (N.eqb (kanji_mode dw dh underline) 0) then
      (if bflg then
         b1 <- lift (to_bytes1 (ascii_mode dw dh underline)) ;;
         _raw (ESC ++ ["!"%byte] ++ b1)
       else ret tt) ;;
      n1 <- lift (to_bytes1 (kanji_mode dw dh underline)) ;;
      _raw (FS ++ ["!"%byte] ++ n1)
    else ret tt) ;;
   (if wbreverse then _raw (GS ++ ["B"%byte] ++ [x01]) else ret tt)) self
  = (with_log (log self ++ attr_set dw dh underline wbreverse bflg) self,
     Ok tt).
Proof.
  rewrite kanji_mode_zero, to_bytes1_kanji_mode, to_bytes1_ascii_mode.
  unfold attr_set. destruct self as [cfg ua ga fc c1 lg].
  destruct (dw || dh || underline), bflg, wbreverse;
    unfold bind, lift, _raw, emit, ret, with_log; simpl;
    repeat rewrite <- app_assoc; simpl; rewrite ?app_nil_r; reflexivity.
Qed.

(** The commands issued after the loop *)
Lemma jptext2_epilogue (dw dh underline wbreverse bflg : bool)
  (self : TM88IV) :
  ((if negb (N.eqb (kanji_mode dw dh underline) 0) then
      (if bflg then _raw (ESC ++ ["!"%byte] ++ [x00]) else ret tt) ;;
      _raw (FS ++ ["!"%byte] ++ [x00])
    else ret tt) ;;
   (if wbreverse then _raw (GS ++ ["B"%byte] ++ [x00]) else ret tt)) self
  = (with_log (log self ++ attr_clear dw dh underline wbreverse bflg) self,
     Ok tt).
Proof.
  rewrite kanji_mode_zero.
  unfold attr_clear. destruct self as [cfg ua ga fc c1 lg].
  destruct (dw || dh || underline), bflg, wbreverse;
    unfold bind, lift, _raw, emit, ret, with_log; simpl;
    repeat rewrite <- app_assoc; simpl; rewrite ?app_nil_r; reflexivity.
Qed.

Lemma bind_assoc {A B C} (m : M A) (f : A -> M B) (g : B -> M C)
  (self : TM88IV) :
  bind (bind m f) g self = bind m (fun a => bind (f a) g) self.
Proof.
  unfold bind. destruct (m self) as [s [a|e]]; reflexivity.
Qed.

Lemma jptext2_unfold (ext : Externals) (text : str)
  (dw dh underline wbreverse bflg : bool) (self : TM88IV) :
  jptext2 ext text dw dh underline wbreverse bflg self
  = match
      for_each (map (fun c => [c]) text) (jptext2_char ext)
        (with_log (log self ++ attr_set dw dh underline wbreverse bflg) self)
    with
    | (self1, Ok _) =>
        (with_log (log self1 ++ attr_clear dw dh underline wbreverse bflg)
           self1, Ok tt)
    | (self1, Raise e) => (self1, Raise e)
    end.
Proof.
  unfold jptext2. rewrite mode_bits_spec.
  rewrite <- (bind_assoc _ _ _ self).
  unfold bind at 1. rewrite jptext2_prologue.
  unfold bind at 1.
  destruct (for_each _ _ _) as [self1 [[]|e]]; [|reflexivity].
  apply jptext2_epilogue.
Qed.

(** * Properties of the packer and of the glyph commands *)

(** C4. Packing a bitmap of width W and height 24 gives W * 3 bytes (72
    for 24x24, 36 for 12x24), column by column from the left; in a
    column each byte holds eight rows from the top, its most significant
    bit the topmost row, a set bit a black (non-white) pixel. An
    all-black 24x24 bitmap packs to 72 bytes 0xFF and an all-white one
    to 72 bytes 0x00. *)
Theorem pack_column_major_msb_first (img : Image) :
  height img = 24 ->
  exists out : bytes,
    pack img = Ok (map (fun b => [b]) out)
    /\ List.length out = width img * 3
    /\ (forall x g i, x < width img -> g < 3 -> i < 8 ->
        exists b,
          nth_error out (x * 3 + g) = Some b
          /\ N.testbit (Byte.to_N b) (N.of_nat (7 - i))
             = negb (N.eqb (getpixel img x (8 * g + i)) 255))
    /\ (width img = 24 ->
        (forall x y, x < 24 -> y < 24 -> getpixel img x y <> 255%N) ->
        out = repeat xff 72)
    /\ (width img = 24 ->
        (forall x y, x < 24 -> y < 24 -> getpixel img x y = 255%N) ->
        out = repeat x00 72).
Proof.
  intros H. exists (packed img 3). split; [|split; [|split; [|split]]].
  - apply pack_packed. exact H.
  - apply length_packed_from.
  - intros x g i Hx Hg Hi. exists (group_byte img x g). split.
    + apply (nth_packed_from img 3 (width img) 0 x g Hx Hg).
    + apply group_byte_testbit. exact Hi.
  - intros Hw Hpx. rewrite (packed_uniform img 3 true).
    + rewrite Hw. reflexivity.
    + intros x y Hx Hy. unfold bit_of. apply negb_true_iff, N.eqb_neq.
      apply Hpx; lia.
  - intros Hw Hpx. rewrite (packed_uniform img 3 false).
    + rewrite Hw. reflexivity.
    + intros x y Hx Hy. unfold bit_of. apply negb_false_iff, N.eqb_eq.
      apply Hpx; lia.
Qed.

Lemma pack_column_major_msb_first_witness :
  pack black_24x24 = Ok (repeat [xff] 72).
Proof.
  destruct (pack_column_major_msb_first black_24x24 eq_refl)
    as (out & Hp & _ & _ & Hb & _).
  rewrite Hp, (Hb eq_refl); [reflexivity|].
  intros x y _ _. discriminate.
Defined.

(** C5, as the code has it. A definition in the double-byte pool sends
    the opcode FS '2', the fixed high byte [_c1], the slot low byte once,
    and then the 72 packed bytes of the 24x24 glyph, after one
    rasterisation. *)
Theorem double_byte_definition_command (ext : Externals) (c2 : bytes)
  (gaiji : str) (font : string) (size ax ay : Z) (self : TM88IV) :
  exists bitmap : bytes,
    pack (glyph_image ext gaiji font size ax ay false)
    = Ok (map (fun b => [b]) bitmap)
    /\ List.length bitmap = 72
    /\ snd (_escpos_register_gaiji ext c2 gaiji font size ax ay false self)
       = Ok tt
    /\ log (fst (_escpos_register_gaiji ext c2 gaiji font size ax ay false
                   self))
       = log self
         ++ DrawText 24 24 font size ax ay gaiji
         :: Raw (FS ++ ["2"%byte] ++ _c1 self ++ c2)
         :: map (fun b => Raw [b]) bitmap
    /\ stream (log (fst (_escpos_register_gaiji ext c2 gaiji font size ax ay
                           false self)))
       = stream (log self) ++ FS ++ ["2"%byte] ++ _c1 self ++ c2 ++ bitmap.
Proof.
  exists (packed (glyph_image ext gaiji font size ax ay false) 3).
  rewrite _escpos_register_gaiji_spec. cbn [fst snd].
  split; [apply pack_packed; reflexivity|].
  split; [apply length_packed_from|].
  split; [reflexivity|].
  split; [reflexivity|].
  cbn [log with_log]. rewrite stream_app.
  unfold definition_events, definition_command. cbn [stream app].
  rewrite stream_raw_bytes. unfold FS. cbn [app].
  rewrite <- !app_assoc. reflexivity.
Qed.

(** C5 as stated fails: the slot low byte is not repeated. For slot 0x40
    and a white glyph the printer receives 76 bytes, not the 77 of an
    opcode, high byte, slot byte twice and 72 bitmap bytes. *)
Lemma double_byte_definition_counterexample :
  stream (log (fst (_escpos_register_gaiji blank_ext [x40] [0x4E02%N]
                      "NotoSansJP-Medium.otf" 24 0 (-8) false
                      no_slot_printer)))
  = [x1c; "2"%byte; xec; x40] ++ repeat x00 72
  /\ ~ exists bitmap : bytes,
         List.length bitmap = 72
         /\ stream (log (fst (_escpos_register_gaiji blank_ext [x40]
                                [0x4E02%N] "NotoSansJP-Medium.otf" 24 0 (-8)
                                false no_slot_printer)))
            = FS ++ ["2"%byte] ++ _c1 no_slot_printer ++ [x40] ++ [x40]
              ++ bitmap.
Proof.
  split; [vm_compute; reflexivity|].
  intros (bitmap & Hlen & E).
  apply (f_equal (@List.length byte)) in E.
  rewrite !length_app, Hlen in E. vm_compute in E. discriminate.
Qed.

(** C6. In the single-byte pool a miss returns ESC % 0x01, the slot byte,
    ESC % 0x00. A hit moves the slot to the most recently used end and
    then raises TypeError: the second operand of its return expression
    is a [str] literal. *)
Theorem single_byte_selection (ext : Externals) (gaiji : str)
  (font : string) (size ax ay : Z) (self : TM88IV) :
  NoDup (OrderedDict.keys (_user_areas self)) ->
  (forall k v rest,
     _user_areas self = (k, v) :: rest ->
     ~ In gaiji (OrderedDict.values (_user_areas self)) ->
     snd (_define_gaiji ext gaiji font size ax ay true self)
     = Ok (ESC ++ ["%"%byte; x01] ++ k ++ ESC ++ ["%"%byte; x00]))
  /\ (In gaiji (OrderedDict.values (_user_areas self)) ->
      snd (_define_gaiji ext gaiji font size ax ay true self)
      = Raise TypeError).
Proof.
  intros Hk. rewrite _define_gaiji_single by exact Hk. split.
  - intros k v rest Hd Hn. apply find_gaiji_None in Hn.
    rewrite Hn, Hd. reflexivity.
  - intros Hin. destruct (find_gaiji_resident _ _ Hin) as [k ->].
    reflexivity.
Qed.

Lemma single_byte_selection_witness :
  snd (_define_gaiji blank_ext [0x4E02%N] "NotoSansJP-Medium.otf" 24 0 (-8)
         true sample_printer)
  = Ok [x1b; "%"%byte; x01; x20; x1b; "%"%byte; x00]
  /\ snd (_define_gaiji blank_ext [0x4E02%N] "NotoSansJP-Medium.otf" 24 0
            (-8) true
            (fst (_define_gaiji blank_ext [0x4E02%N] "NotoSansJP-Medium.otf"
                    24 0 (-8) true sample_printer)))
     = Raise TypeError.
Proof.
  split.
  - refine (proj1 (single_byte_selection blank_ext [0x4E02%N]
                     "NotoSansJP-Medium.otf" 24 0 (-8) sample_printer _)
              [x20] [] (tl (_user_areas sample_printer)) eq_refl _).
    + apply distinctb_NoDup. vm_compute. reflexivity.
    + vm_compute. intuition discriminate.
  - refine (proj2 (single_byte_selection blank_ext [0x4E02%N]
                     "NotoSansJP-Medium.otf" 24 0 (-8) _ _) _).
    + apply distinctb_NoDup. vm_compute. reflexivity.
    + vm_compute. intuition.
Defined.

(** C9, as the code has it. With a pool that has no slot, [_define_gaiji]
    raises nothing: it returns the empty byte string and leaves the
    pools, the font cache and the log as they were. *)
Theorem empty_pool_returns_empty (ext : Externals) (gaiji : str)
  (font : string) (size ax ay : Z) (asciiflg : bool) (self : TM88IV) :
  (if asciiflg then _user_areas self else _gaiji_areas self) = [] ->
  _define_gaiji ext gaiji font size ax ay asciiflg self = (self, Ok []).
Proof.
  intros H. unfold _define_gaiji, OrderedDict.items.
  destruct asciiflg; rewrite H; reflexivity.
Qed.

Lemma empty_pool_returns_empty_witness :
  _define_gaiji blank_ext [0x4E02%N] "NotoSansJP-Medium.otf" 24 0 (-8) false
    no_slot_printer
  = (no_slot_printer, Ok []).
Proof.
  apply (empty_pool_returns_empty blank_ext [0x4E02%N]
           "NotoSansJP-Medium.otf" 24 0 (-8) false no_slot_printer).
  reflexivity.
Defined.

(** C9 as stated fails: on a printer without slots the registration is
    not an error. *)
Lemma empty_pool_counterexample :
  List.length (_gaiji_areas no_slot_printer) = 0
  /\ ~ exists e,
         snd (_define_gaiji blank_ext [0x4E02%N] "NotoSansJP-Medium.otf" 24
                0 (-8) false no_slot_printer)
         = Raise e.
Proof.
  split; [reflexivity|]. intros [e H]. vm_compute in H. discriminate.
Qed.

(** * Properties of the print loop *)

Lemma builtin_member_iff (cfg : Config) (c : str) :
  builtin_member cfg c
  <-> isascii c || contains (_jis_x_0201 cfg) c
      || contains (_jis_x_0208 cfg) c = true.
Proof.
  unfold builtin_member. rewrite !orb_true_iff, !contains_In. tauto.
Qed.

Lemma kanji_member_iff (cfg : Config) (c : str) :
  kanji_member cfg c
  <-> contains (_jis_x_0212 cfg) c || contains (_jis_x_0213 cfg) c = true.
Proof.
  unfold kanji_member. rewrite orb_true_iff, !contains_In. tauto.
Qed.

(** C1. The print loop classifies each character by the first rule that
    matches: ASCII, JIS X 0201 or JIS X 0208 are sent through the
    built-in code page; otherwise JIS X 0212 or JIS X 0213 become a
    custom glyph in the kanji font; otherwise an emoji becomes one in
    the emoji font; otherwise the fallback font is used. Exactly one
    rule matches every character, and an ASCII character is built in. *)
Theorem jptext2_char_first_match (ext : Externals) (self : TM88IV) (c : str) :
  (exists! r, matches ext (config self) c r)
  /\ (forall r, matches ext (config self) c r ->
      jptext2_char ext c self
      = emit_classified ext (classification_of (config self) r) c self)
  /\ (isascii c = true -> matches ext (config self) c Rule1).
Proof.
  pose proof (builtin_member_iff (config self) c) as B.
  pose proof (kanji_member_iff (config self) c) as K.
  split; [|split].
  - destruct (isascii c || contains (_jis_x_0201 (config self)) c
              || contains (_jis_x_0208 (config self)) c) eqn:E1;
      [|destruct (contains (_jis_x_0212 (config self)) c
                  || contains (_jis_x_0213 (config self)) c) eqn:E2;
        [|destruct (is_emoji ext c) eqn:E3]].
    + exists Rule1. split; [apply B; reflexivity|].
      intros [] H; simpl in H; try reflexivity; exfalso; tauto.
    + exists Rule2.
      assert (Hb : ~ builtin_member (config self) c)
        by (rewrite B; discriminate).
      split; [split; [exact Hb | apply K; reflexivity]|].
      intros [] H; simpl in H; try reflexivity; exfalso; tauto.
    + exists Rule3.
      assert (Hb : ~ builtin_member (config self) c)
        by (rewrite B; discriminate).
      assert (Hk : ~ kanji_member (config self) c)
        by (rewrite K; discriminate).
      split; [repeat split; assumption|].
      intros [] H; simpl in H; try reflexivity; exfalso; tauto.
    + exists Rule4.
      assert (Hb : ~ builtin_member (config self) c)
        by (rewrite B; discriminate).
      assert (Hk : ~ kanji_member (config self) c)
        by (rewrite K; discriminate).
      split; [repeat split; try assumption; rewrite E3; discriminate|].
      intros [] H; simpl in H; try reflexivity; exfalso; try tauto.
      destruct H as (_ & _ & H). congruence.
  - intros r H. unfold jptext2_char.
    destruct r; simpl in H.
    + apply B in H. rewrite H. reflexivity.
    + destruct H as [Hb Hk]. apply K in Hk.
      rewrite B in Hb. apply not_true_is_false in Hb.
      rewrite Hb, Hk. reflexivity.
    + destruct H as (Hb & Hk & He).
      rewrite B in Hb. apply not_true_is_false in Hb.
      rewrite K in Hk. apply not_true_is_false in Hk.
      rewrite Hb, Hk, He. reflexivity.
    + destruct H as (Hb & Hk & He).
      rewrite B in Hb. apply not_true_is_false in Hb.
      rewrite K in Hk. apply not_true_is_false in Hk.
      apply not_true_is_false in He.
      rewrite Hb, Hk, He. reflexivity.
  - intros H. left. exact H.
Qed.

Lemma jptext2_char_first_match_witness :
  jptext2_char blank_ext [0x41%N] sample_printer
  = emit_classified blank_ext BuiltinSingleOrLegacyDoubleByte [0x41%N]
      sample_printer
  /\ jptext2_char blank_ext [0x4FF1%N] sample_printer
     = emit_classified blank_ext
         (CustomGlyph "NotoSansJP-Medium.otf" 24 0 (-8)) [0x4FF1%N]
         sample_printer.
Proof.
  destruct (jptext2_char_first_match blank_ext sample_printer [0x41%N])
    as (_ & Ha & Hascii).
  destruct (jptext2_char_first_match blank_ext sample_printer [0x4FF1%N])
    as (_ & Hk & _).
  split.
  - exact (Ha Rule1 (Hascii eq_refl)).
  - apply (Hk Rule2). split.
    + intros [H|[H|H]]; vm_compute in H; intuition discriminate.
    + right. left. reflexivity.
Defined.

(** C10. A built-in character that cp932 cannot encode is dropped
    without an error: the loop sends an empty byte string for it, so the
    printer receives no byte for the character, and [jptext2] returns
    normally. *)
Theorem unencodable_builtin_dropped (ext : Externals) (self : TM88IV)
  (c : codepoint) (dw dh underline wbreverse bflg : bool) :
  matches ext (config self) [c] Rule1 ->
  cp932 ext c = None ->
  jptext2_char ext [c] self = (with_log (log self ++ [Raw []]) self, Ok tt)
  /\ stream (log (fst (jptext2_char ext [c] self))) = stream (log self)
  /\ snd (jptext2 ext [c] dw dh underline wbreverse bflg self) = Ok tt
  /\ stream (log (fst (jptext2 ext [c] dw dh underline wbreverse bflg self)))
     = stream (log self)
       ++ stream (attr_set dw dh underline wbreverse bflg)
       ++ stream (attr_clear dw dh underline wbreverse bflg).
Proof.
  intros Hr Hc.
  assert (E : forall s, config s = config self ->
            jptext2_char ext [c] s = (with_log (log s ++ [Raw []]) s, Ok tt)).
  { intros s Hs. unfold jptext2_char. rewrite Hs.
    apply (builtin_member_iff (config self) [c]) in Hr. rewrite Hr.
    unfold encode_cp932_ignore. simpl. rewrite Hc. reflexivity. }
  split; [apply E; reflexivity|]. split; [|split].
  - rewrite E by reflexivity. cbn [fst log with_log].
    rewrite stream_app. simpl. apply app_nil_r.
  - rewrite jptext2_unfold. cbn [map for_each]. unfold bind.
    rewrite E by reflexivity. reflexivity.
  - rewrite jptext2_unfold. cbn [map for_each]. unfold bind.
    rewrite E by reflexivity. cbn [ret fst log with_log].
    rewrite !stream_app. cbn [stream app]. rewrite <- !app_assoc.
    reflexivity.
Qed.

Lemma unencodable_builtin_dropped_witness :
  jptext2_char blank_ext [0xA5%N] sample_printer
  = (with_log (log sample_printer ++ [Raw []]) sample_printer, Ok tt).
Proof.
  apply (unencodable_builtin_dropped blank_ext sample_printer 0xA5%N
           false false false false false).
  - right. left. left. reflexivity.
  - reflexivity.
Defined.

Lemma attr_set_clear_match (dw dh underline wbreverse bflg : bool) :
  (In (Raw (FS ++ ["!"%byte] ++ [x00]))
      (attr_clear dw dh underline wbreverse bflg)
   <-> In (Raw (FS ++ ["!"%byte] ++ [byte_of (kanji_mode dw dh underline)]))
         (attr_set dw dh underline wbreverse bflg))
  /\ (In (Raw (ESC ++ ["!"%byte] ++ [x00]))
        (attr_clear dw dh underline wbreverse bflg)
      <-> In (Raw (ESC ++ ["!"%byte]
                     ++ [byte_of (ascii_mode dw dh underline)]))
            (attr_set dw dh underline wbreverse bflg))
  /\ (In (Raw (GS ++ ["B"%byte] ++ [x00]))
        (attr_clear dw dh underline wbreverse bflg)
      <-> In (Raw (GS ++ ["B"%byte] ++ [x01]))
            (attr_set dw dh underline wbreverse bflg)).
Proof.
  destruct dw, dh, underline, wbreverse, bflg; vm_compute;
    repeat split; intros H;
    repeat (destruct H as [H|H]; try discriminate H; try contradiction);
    auto 6.
Qed.

(** C7. [jptext2] sends the attribute-set commands before the output of
    the first character and the attribute-clear commands after the
    output of the last one, also for an empty text; each clear command
    is sent exactly when its set command was sent, and with
    [underline] the FS ! command with bit 7 set is among the set
    commands. *)
Theorem jptext2_brackets_attributes (ext : Externals) (text : str)
  (dw dh underline wbreverse bflg : bool) (self : TM88IV) :
  exists self1 body,
    for_each (map (fun c => [c]) text) (jptext2_char ext)
      (with_log (log self ++ attr_set dw dh underline wbreverse bflg) self)
    = (self1, Ok tt)
    /\ log self1
       = (log self ++ attr_set dw dh underline wbreverse bflg) ++ body
    /\ (text = [] -> body = [])
    /\ jptext2 ext text dw dh underline wbreverse bflg self
       = (with_log
            (log self ++ attr_set dw dh underline wbreverse bflg ++ body
             ++ attr_clear dw dh underline wbreverse bflg) self1,
          Ok tt)
    /\ (dw || dh || underline = true ->
        In (Raw (FS ++ ["!"%byte] ++ [byte_of (kanji_mode dw dh underline)]))
          (attr_set dw dh underline wbreverse bflg)
        /\ In (Raw (FS ++ ["!"%byte] ++ [x00]))
             (attr_clear dw dh underline wbreverse bflg))
    /\ (underline = true ->
        N.testbit (Byte.to_N (byte_of (kanji_mode dw dh underline))) 7 = true)
    /\ (In (Raw (FS ++ ["!"%byte] ++ [x00]))
          (attr_clear dw dh underline wbreverse bflg)
        <-> In (Raw (FS ++ ["!"%byte]
                       ++ [byte_of (kanji_mode dw dh underline)]))
              (attr_set dw dh underline wbreverse bflg))
    /\ (In (Raw (ESC ++ ["!"%byte] ++ [x00]))
          (attr_clear dw dh underline wbreverse bflg)
        <-> In (Raw (ESC ++ ["!"%byte]
                       ++ [byte_of (ascii_mode dw dh underline)]))
              (attr_set dw dh underline wbreverse bflg))
    /\ (In (Raw (GS ++ ["B"%byte] ++ [x00]))
          (attr_clear dw dh underline wbreverse bflg)
        <-> In (Raw (GS ++ ["B"%byte] ++ [x01]))
              (attr_set dw dh underline wbreverse bflg)).
Proof.
  destruct (jptext2_loop_total ext text
              (with_log (log self ++ attr_set dw dh underline wbreverse bflg)
                 self)) as (self1 & body & Hloop & Hlog & Hempty).
  exists self1, body.
  split; [exact Hloop|]. split; [exact Hlog|]. split; [exact Hempty|].
  split.
  { cbn [log with_log] in Hlog.
    rewrite jptext2_unfold, Hloop, Hlog. rewrite <- !app_assoc.
    reflexivity. }
  split.
  { intros Hn. unfold attr_set, attr_clear. rewrite Hn. split.
    - apply in_or_app. left. apply in_or_app. right. left. reflexivity.
    - apply in_or_app. left. apply in_or_app. right. left. reflexivity. }
  split.
  { intros ->. destruct dw, dh; reflexivity. }
  apply attr_set_clear_match.
Qed.

Lemma jptext2_brackets_attributes_witness :
  jptext2 blank_ext [] false false true false false no_slot_printer
  = (with_log [Raw [x1c; "!"%byte; x80]; Raw [x1c; "!"%byte; x00]]
       no_slot_printer, Ok tt).
Proof.
  destruct (jptext2_brackets_attributes blank_ext [] false false true false
              false no_slot_printer)
    as (self1 & body & Hloop & _ & Hempty & Hj & _).
  rewrite Hj, (Hempty eq_refl).
  cbn [map for_each] in Hloop. unfold ret in Hloop.
  injection Hloop as <-. reflexivity.
Defined.

(** * Properties of the slot pools *)

Lemma find_gaiji_middle (gaiji : str) (d1 d2 : pool) (k : bytes) :
  ~ In gaiji (OrderedDict.values d1) ->
  find_gaiji gaiji (d1 ++ (k, gaiji) :: d2) = Some k.
Proof.
  intros Hn. induction d1 as [|[k' v] d1 IH]; simpl.
  - rewrite str_eqb_refl. reflexivity.
  - destruct (str_eqb v gaiji) eqn:E.
    + apply str_eqb_eq in E. exfalso; apply Hn; left; exact E.
    + apply IH. intros Hin; apply Hn; right; exact Hin.
Qed.

(** A character occupies one slot only. *)
Lemma resident_once (gaiji : str) (d1 d2 : pool) (k : bytes) :
  NoDup (occupants (d1 ++ (k, gaiji) :: d2)) ->
  gaiji <> [] ->
  ~ In gaiji (OrderedDict.values d1) /\ ~ In gaiji (OrderedDict.values d2).
Proof.
  intros Ho Hg. rewrite occupants_app in Ho.
  change ((k, gaiji) :: d2) with ([(k, gaiji)] ++ d2) in Ho.
  rewrite occupants_app in Ho.
  assert (E : occupants [(k, gaiji)] = [gaiji]).
  { unfold occupants. simpl.
    destruct (str_eqb gaiji []) eqn:E; [|reflexivity].
    apply str_eqb_eq in E. contradiction. }
  rewrite E in Ho. simpl in Ho.
  pose proof (NoDup_remove_2 _ _ _ Ho) as H.
  split; intros Hin; apply H; apply in_or_app; [left|right];
    apply occupants_In; split; assumption.
Qed.

Lemma access_pool (ext : Externals) (font : string) (size ax ay : Z)
  (gaiji : str) (self : TM88IV) (n : nat) :
  pool_inv n (_gaiji_areas self) ->
  _gaiji_areas (access ext font size ax ay gaiji self)
  = lru_touch gaiji (_gaiji_areas self)
  /\ pool_inv n (_gaiji_areas (access ext font size ax ay gaiji self)).
Proof.
  intros Hinv. unfold access.
  destruct (_define_gaiji_double_pool ext gaiji font size ax ay self
              (inv_slots _ _ Hinv)) as (E & _).
  rewrite E. split; [reflexivity | apply lru_touch_inv; exact Hinv].
Qed.

Lemma accesses_pool (ext : Externals) (font : string) (size ax ay : Z)
  (gs : list str) (n : nat) :
  forall self,
    pool_inv n (_gaiji_areas self) ->
    _gaiji_areas (accesses ext font size ax ay gs self)
    = fold_left (fun d g => lru_touch g d) gs (_gaiji_areas self).
Proof.
  induction gs as [|g gs IH]; intros self Hinv; [reflexivity|].
  destruct (access_pool ext font size ax ay g self n Hinv) as [E Hinv'].
  change (accesses ext font size ax ay (g :: gs) self)
    with (accesses ext font size ax ay gs (access ext font size ax ay g self)).
  rewrite (IH _ Hinv'), E. reflexivity.
Qed.

(** After references to a, b, c, a the three most recently used slots
    hold b, c, a, in this order. *)
Lemma lru_touch_abca (a b c : str) (d : pool) (n : nat) :
  pool_inv n d -> 3 <= n ->
  a <> [] -> a <> b -> a <> c -> b <> c ->
  exists rest ka kb kc,
    lru_touch a (lru_touch c (lru_touch b (lru_touch a d)))
    = rest ++ [(kb, b); (kc, c); (ka, a)]
    /\ List.length rest + 3 = n.
Proof.
  intros Hinv Hn Ha Hab Hac Hbc.
  pose proof (inv_capacity _ _ Hinv) as Hlen.
  destruct (lru_touch_suffix a d []) as (p1 & ka & E1 & L1).
  { intros ->. simpl in Hlen. lia. }
  { rewrite app_nil_r. exact (inv_slots _ _ Hinv). }
  { intros []. }
  rewrite app_nil_r in E1. cbn [app] in E1.
  pose proof (lru_touch_inv _ a _ Hinv) as Hinv1. rewrite E1 in Hinv1.
  destruct (lru_touch_suffix b p1 [(ka, a)]) as (p2 & kb & E2 & L2).
  { intros ->. simpl in L1. lia. }
  { exact (inv_slots _ _ Hinv1). }
  { simpl. intros [H|[]]. congruence. }
  pose proof (lru_touch_inv _ b _ Hinv1) as Hinv2. rewrite E2 in Hinv2.
  cbn [app] in E2, Hinv2.
  destruct (lru_touch_suffix c p2 [(ka, a); (kb, b)]) as (p3 & kc & E3 & L3).
  { intros ->. simpl in L2. lia. }
  { exact (inv_slots _ _ Hinv2). }
  { simpl. intros [H|[H|[]]]; congruence. }
  pose proof (lru_touch_inv _ c _ Hinv2) as Hinv3. rewrite E3 in Hinv3.
  cbn [app] in E3, Hinv3.
  destruct (resident_once a p3 [(kb, b); (kc, c)] ka
              (inv_occupants _ _ Hinv3) Ha) as [Hn3 _].
  destruct (lru_touch_hit a p3 [(kb, b); (kc, c)] ka
              (inv_slots _ _ Hinv3) Hn3) as [_ E4].
  exists p3, ka, kb, kc. rewrite E1, E2, E3. split; [exact E4|]. lia.
Qed.

(** A character in the most recently used slot is found there again. *)
Lemma _define_gaiji_double_again (ext : Externals) (gaiji : str)
  (font : string) (size ax ay : Z) (self : TM88IV) (d : pool) (k : bytes) :
  NoDup (OrderedDict.keys (_gaiji_areas self)) ->
  _gaiji_areas self = d ++ [(k, gaiji)] ->
  ~ In gaiji (OrderedDict.values d) ->
  _define_gaiji ext gaiji font size ax ay false self
  = (with_gaiji_areas (d ++ [(k, gaiji)]) self, Ok (_c1 self ++ k)).
Proof.
  intros Hk Hd Hn. rewrite _define_gaiji_double by exact Hk.
  rewrite Hd in *.
  destruct (lru_touch_hit gaiji d [] k Hk Hn) as [-> ->].
  reflexivity.
Qed.

(** C2. A character resident in the double-byte pool is found again:
    [_define_gaiji] returns the selection bytes of the slot that holds
    it, which are the bytes its previous registration returned; nothing
    is rasterised and nothing is sent; the slot moves to the most
    recently used end and keeps its code. After references to a, b, c, a
    the last three slots hold b, c, a: in a pool of three slots the
    least recently used character is b. *)
Theorem hit_reuses_slot (ext : Externals) (font : string) (size ax ay : Z)
  (self : TM88IV) :
  NoDup (OrderedDict.keys (_gaiji_areas self)) ->
  NoDup (occupants (_gaiji_areas self)) ->
  (forall gaiji,
     In gaiji (OrderedDict.values (_gaiji_areas self)) ->
     exists k d1 d2,
       _gaiji_areas self = d1 ++ (k, gaiji) :: d2
       /\ ~ In gaiji (OrderedDict.values d1)
       /\ _define_gaiji ext gaiji font size ax ay false self
          = (with_gaiji_areas (d1 ++ d2 ++ [(k, gaiji)]) self,
             Ok (_c1 self ++ k)))
  /\ (forall gaiji font' size' ax' ay',
        gaiji <> [] ->
        let r1 := _define_gaiji ext gaiji font size ax ay false self in
        let r2 :=
          _define_gaiji ext gaiji font' size' ax' ay' false (fst r1) in
        snd r2 = snd r1
        /\ log (fst r2) = log (fst r1)
        /\ _font_cache (fst r2) = _font_cache (fst r1))
  /\ (forall a b c,
        a <> [] -> a <> b -> a <> c -> b <> c ->
        3 <= List.length (_gaiji_areas self) ->
        exists rest ka kb kc,
          _gaiji_areas (accesses ext font size ax ay [a; b; c; a] self)
          = rest ++ [(kb, b); (kc, c); (ka, a)]
          /\ List.length rest + 3 = List.length (_gaiji_areas self)).
Proof.
  intros Hk Ho.
  assert (Hinv : pool_inv (List.length (_gaiji_areas self))
                   (_gaiji_areas self))
    by (constructor; [reflexivity | exact Hk | exact Ho]).
  split; [|split].
  - intros gaiji Hin.
    destruct (find_gaiji_resident _ _ Hin) as [k F].
    destruct (find_gaiji_Some _ _ _ F) as (d1 & d2 & Hd & Hn).
    exists k, d1, d2. split; [exact Hd|]. split; [exact Hn|].
    rewrite _define_gaiji_double by exact Hk. rewrite F.
    rewrite Hd in Hk |- *.
    destruct (lru_touch_hit _ _ _ _ Hk Hn) as [_ ->]. reflexivity.
  - intros gaiji font' size' ax' ay' Hg. cbv zeta.
    pose proof (lru_touch_inv _ gaiji _ Hinv) as Hinv1.
    rewrite (_define_gaiji_double ext gaiji font size ax ay self Hk).
    destruct (find_gaiji gaiji (_gaiji_areas self)) as [k|] eqn:F.
    + destruct (find_gaiji_Some _ _ _ F) as (d1 & d2 & Hd & Hn).
      rewrite Hd in Hk, Ho, Hinv1 |- *.
      destruct (lru_touch_hit _ _ _ _ Hk Hn) as [_ Ht].
      rewrite Ht in Hinv1 |- *.
      destruct (resident_once _ _ _ _ Ho Hg) as [_ Hn2].
      cbn [fst snd].
      rewrite (_define_gaiji_double_again ext gaiji font' size' ax' ay'
                 _ (d1 ++ d2) k).
      * repeat split.
      * cbn [_gaiji_areas with_gaiji_areas]. exact (inv_slots _ _ Hinv1).
      * cbn [_gaiji_areas with_gaiji_areas]. apply app_assoc.
      * rewrite values_app, in_app_iff. tauto.
    + destruct (_gaiji_areas self) as [|[k v] d'] eqn:Hd.
      * cbn [fst snd].
        rewrite (_define_gaiji_double ext gaiji font' size' ax' ay' self)
          by (rewrite Hd; exact Hk).
        rewrite Hd, F. repeat split.
      * apply find_gaiji_None in F.
        rewrite (lru_touch_miss _ _ _ _ F) in Hinv1 |- *.
        cbn [fst snd].
        rewrite (_define_gaiji_double_again ext gaiji font' size' ax' ay'
                   _ d' k).
        -- repeat split.
        -- cbn [_gaiji_areas with_gaiji_areas with_font_cache with_log].
           exact (inv_slots _ _ Hinv1).
        -- reflexivity.
        -- intros Hin. apply F. right; exact Hin.
  - intros a b c Ha Hab Hac Hbc Hn.
    rewrite (accesses_pool ext font size ax ay [a; b; c; a] _ self Hinv).
    cbn [fold_left].
    exact (lru_touch_abca a b c _ _ Hinv Hn Ha Hab Hac Hbc).
Qed.

Lemma hit_reuses_slot_witness :
  exists ka kb kc,
    _gaiji_areas
      (accesses blank_ext "NotoSansJP-Medium.otf" 24 0 (-8)
         [[0x4E02%N]; [0x4FF1%N]; [0x525D%N]; [0x4E02%N]] three_slot_printer)
    = [(kb, [0x4FF1%N]); (kc, [0x525D%N]); (ka, [0x4E02%N])].
Proof.
  destruct (hit_reuses_slot blank_ext "NotoSansJP-Medium.otf" 24 0 (-8)
              three_slot_printer) as (_ & _ & H).
  - apply distinctb_NoDup. vm_compute. reflexivity.
  - vm_compute. constructor.
  - destruct (H [0x4E02%N] [0x4FF1%N] [0x525D%N]) as
      (rest & ka & kb & kc & E & L).
    + discriminate.
    + discriminate.
    + discriminate.
    + discriminate.
    + vm_compute. lia.
    + exists ka, kb, kc.
      destruct rest; [exact E|].
      change (List.length (_gaiji_areas three_slot_printer)) with 3 in L.
      simpl in L. lia.
Defined.

Lemma draw_count_definition_events (ext : Externals) (c1 c2 : bytes)
  (gaiji : str) (font : string) (size ax ay : Z) (asciiflg : bool) :
  draw_count (definition_events ext c1 c2 gaiji font size ax ay asciiflg) = 1.
Proof.
  unfold definition_events. cbn [draw_count]. rewrite draw_count_app.
  assert (E : forall l : bytes, draw_count (map (fun b => Raw [b]) l) = 0)
    by (induction l; simpl; auto).
  rewrite E. destruct asciiflg; reflexivity.
Qed.

(** A miss takes over the first item of the pool; the character that
    was there is not resident any more, and registering it again is a
    miss too. *)
Lemma _define_gaiji_miss (ext : Externals) (gaiji : str) (font : string)
  (size ax ay : Z) (font' : string) (size' ax' ay' : Z) (self : TM88IV)
  (k0 : bytes) (v0 : str) (rest : pool) :
  _gaiji_areas self = (k0, v0) :: rest ->
  NoDup (OrderedDict.keys (_gaiji_areas self)) ->
  NoDup (occupants (_gaiji_areas self)) ->
  v0 <> [] ->
  ~ In gaiji (OrderedDict.values (_gaiji_areas self)) ->
  let r := _define_gaiji ext gaiji font size ax ay false self in
  let r' := _define_gaiji ext v0 font' size' ax' ay' false (fst r) in
  snd r = Ok (_c1 self ++ k0)
  /\ _gaiji_areas (fst r) = rest ++ [(k0, gaiji)]
  /\ log (fst r)
     = log self
       ++ definition_events ext (_c1 self) k0 gaiji font size ax ay false
  /\ draw_count (log (fst r)) = S (draw_count (log self))
  /\ ~ In v0 (OrderedDict.values (_gaiji_areas (fst r)))
  /\ exists k1 v1 rest1,
       rest ++ [(k0, gaiji)] = (k1, v1) :: rest1
       /\ snd r' = Ok (_c1 self ++ k1)
       /\ _gaiji_areas (fst r') = rest1 ++ [(k1, v0)]
       /\ log (fst r')
          = log (fst r)
            ++ definition_events ext (_c1 self) k1 v0 font' size' ax' ay'
                 false
       /\ draw_count (log (fst r')) = S (draw_count (log (fst r))).
Proof.
  intros Hd Hk Ho Hv Hn. cbv zeta.
  assert (Hinv : pool_inv (List.length (_gaiji_areas self))
                   (_gaiji_areas self))
    by (constructor; [reflexivity | exact Hk | exact Ho]).
  pose proof (lru_touch_inv _ gaiji _ Hinv) as Hinv1.
  rewrite (_define_gaiji_double ext gaiji font size ax ay self Hk).
  assert (F : find_gaiji gaiji (_gaiji_areas self) = None)
    by (apply find_gaiji_None; exact Hn).
  rewrite F. rewrite Hd in Hn, Ho, Hinv1 |- *.
  rewrite (lru_touch_miss _ _ _ _ Hn) in Hinv1 |- *.
  cbn [fst snd log _gaiji_areas with_log with_font_cache with_gaiji_areas].
  assert (Hv0 : ~ In v0 (OrderedDict.values (rest ++ [(k0, gaiji)]))).
  { destruct (resident_once v0 [] rest k0 Ho Hv) as [_ Hr].
    rewrite values_app, in_app_iff. simpl. intros [H|[H|[]]].
    - exact (Hr H).
    - apply Hn. left. symmetry. exact H. }
  split; [reflexivity|]. split; [reflexivity|]. split; [reflexivity|].
  split.
  { rewrite draw_count_app, draw_count_definition_events. lia. }
  split; [exact Hv0|].
  destruct (rest ++ [(k0, gaiji)]) as [|[k1 v1] rest1] eqn:E.
  { destruct rest; discriminate E. }
  exists k1, v1, rest1. split; [reflexivity|].
  match goal with
  | |- context [_define_gaiji ext v0 font' size' ax' ay' false ?s] =>
      set (self1 := s)
  end.
  assert (Hp1 : _gaiji_areas self1 = (k1, v1) :: rest1) by reflexivity.
  assert (Hk1 : NoDup (OrderedDict.keys (_gaiji_areas self1)))
    by (rewrite Hp1; exact (inv_slots _ _ Hinv1)).
  rewrite (_define_gaiji_double ext v0 font' size' ax' ay' self1 Hk1).
  rewrite Hp1.
  assert (F1 : find_gaiji v0 ((k1, v1) :: rest1) = None)
    by (apply find_gaiji_None; exact Hv0).
  rewrite F1. rewrite (lru_touch_miss _ _ _ _ Hv0).
  cbn [fst snd log _gaiji_areas with_log with_font_cache with_gaiji_areas].
  split; [reflexivity|]. split; [reflexivity|]. split; [reflexivity|].
  rewrite (draw_count_app (log self1)), draw_count_definition_events.
  subst self1. cbn [log with_log]. lia.
Qed.

Lemma lru_touch_fill (cs : list str) :
  forall (ks : list bytes) (filled : pool),
    NoDup cs ->
    (forall c, In c cs -> c <> [] /\ ~ In c (OrderedDict.values filled)) ->
    List.length cs <= List.length ks ->
    fold_left (fun d g => lru_touch g d) cs
      (map (fun k => (k, [])) ks ++ filled)
    = map (fun k => (k, [])) (skipn (List.length cs) ks) ++ filled
      ++ combine (firstn (List.length cs) ks) cs.
Proof.
  induction cs as [|c cs IH]; intros ks filled Hnd Hc Hlen.
  - simpl. rewrite app_nil_r. reflexivity.
  - destruct ks as [|k ks]; [simpl in Hlen; lia|].
    inversion Hnd as [|? ? Hc' Hnd']; subst.
    destruct (Hc c (or_introl eq_refl)) as [Hne Hnf].
    cbn [fold_left map app List.length skipn firstn combine].
    rewrite lru_touch_miss.
    + rewrite <- app_assoc. rewrite IH.
      * rewrite <- !app_assoc. reflexivity.
      * exact Hnd'.
      * intros c0 Hin. destruct (Hc c0 (or_intror Hin)) as [H0 H1].
        split; [exact H0|]. rewrite values_app, in_app_iff. simpl.
        intros [H|[H|[]]]; [exact (H1 H)|]. subst. exact (Hc' Hin).
      * simpl in Hlen. lia.
    + simpl. rewrite values_app, in_app_iff.
      intros [H|[H|H]]; [congruence| |exact (Hnf H)].
      unfold OrderedDict.values in H. rewrite map_map in H. simpl in H.
      apply in_map_iff in H. destruct H as (? & H & _). congruence.
Qed.

Lemma accesses_inv (ext : Externals) (font : string) (size ax ay : Z)
  (gs : list str) (n : nat) :
  forall self,
    pool_inv n (_gaiji_areas self) ->
    pool_inv n (_gaiji_areas (accesses ext font size ax ay gs self))
    /\ _c1 (accesses ext font size ax ay gs self) = _c1 self.
Proof.
  induction gs as [|g gs IH]; intros self Hinv; [split; trivial|].
  change (accesses ext font size ax ay (g :: gs) self)
    with (accesses ext font size ax ay gs (access ext font size ax ay g self)).
  destruct (access_pool ext font size ax ay g self n Hinv) as [_ Hinv'].
  destruct (IH _ Hinv') as [H1 H2]. split; [exact H1|].
  rewrite H2. unfold access.
  apply (_define_gaiji_double_pool ext g font size ax ay self
           (inv_slots _ _ Hinv)).
Qed.

Lemma unused_pool_inv (ks : list bytes) :
  NoDup ks -> pool_inv (List.length ks) (map (fun k => (k, [])) ks).
Proof.
  intros H. constructor.
  - apply length_map.
  - unfold OrderedDict.keys. rewrite map_map. simpl. rewrite map_id. exact H.
  - replace (occupants (map (fun k => (k, [])) ks)) with (@nil str);
      [constructor|].
    clear H. induction ks as [|k ks IH]; [reflexivity | exact IH].
Qed.

Lemma values_combine (ks : list bytes) (cs : list str) :
  List.length cs = List.length ks ->
  OrderedDict.values (combine ks cs) = cs.
Proof.
  revert cs; induction ks as [|k ks IH]; intros [|c cs] H;
    try discriminate; [reflexivity|].
  simpl. f_equal. apply IH. simpl in H. lia.
Qed.

(** C3. Registering a character that is not resident takes over exactly
    the least recently used slot, the first item of the pool: the other
    slots keep their order and occupants, the new character sits in that
    slot at the most recently used end, one glyph is rasterised and
    defined, and the selection bytes of the slot are returned; the
    evicted character is not resident any more, so registering it again
    rasterises and defines it afresh. In particular, after an unused
    pool of N slots was filled with N distinct characters, the
    (N+1)th evicts the first one registered. *)
Theorem miss_evicts_lru (ext : Externals) (font : string) (size ax ay : Z) :
  (forall (gaiji : str) (font' : string) (size' ax' ay' : Z) (self : TM88IV)
          (k0 : bytes) (v0 : str) (rest : pool),
     _gaiji_areas self = (k0, v0) :: rest ->
     NoDup (OrderedDict.keys (_gaiji_areas self)) ->
     NoDup (occupants (_gaiji_areas self)) ->
     v0 <> [] ->
     ~ In gaiji (OrderedDict.values (_gaiji_areas self)) ->
     let r := _define_gaiji ext gaiji font size ax ay false self in
     let r' := _define_gaiji ext v0 font' size' ax' ay' false (fst r) in
     snd r = Ok (_c1 self ++ k0)
     /\ _gaiji_areas (fst r) = rest ++ [(k0, gaiji)]
     /\ log (fst r)
        = log self
          ++ DrawText 24 24 font size ax ay gaiji
          :: Raw (FS ++ ["2"%byte] ++ _c1 self ++ k0)
          :: map (fun b => Raw [b])
               (packed (glyph_image ext gaiji font size ax ay false) 3)
     /\ ~ In v0 (OrderedDict.values (_gaiji_areas (fst r)))
     /\ draw_count (log (fst r')) = S (draw_count (log (fst r)))
     /\ exists k1,
          snd r' = Ok (_c1 self ++ k1)
          /\ log (fst r')
             = log (fst r)
               ++ DrawText 24 24 font' size' ax' ay' v0
               :: Raw (FS ++ ["2"%byte] ++ _c1 self ++ k1)
               :: map (fun b => Raw [b])
                    (packed (glyph_image ext v0 font' size' ax' ay' false) 3))
  /\ (forall (self : TM88IV) (k1 : bytes) (ks : list bytes) (c1 : str)
             (cs : list str) (g : str),
        _gaiji_areas self = map (fun k => (k, [])) (k1 :: ks) ->
        NoDup (k1 :: ks) ->
        List.length cs = List.length ks ->
        NoDup (c1 :: cs ++ [g]) ->
        (forall c, In c (c1 :: cs ++ [g]) -> c <> []) ->
        let full := accesses ext font size ax ay (c1 :: cs) self in
        _gaiji_areas full = combine (k1 :: ks) (c1 :: cs)
        /\ snd (_define_gaiji ext g font size ax ay false full)
           = Ok (_c1 self ++ k1)
        /\ _gaiji_areas (access ext font size ax ay g full)
           = combine ks cs ++ [(k1, g)]).
Proof.
  split.
  - intros gaiji font' size' ax' ay' self k0 v0 rest Hd Hk Ho Hv Hn.
    destruct (_define_gaiji_miss ext gaiji font size ax ay font' size' ax'
                ay' self k0 v0 rest Hd Hk Ho Hv Hn)
      as (H1 & H2 & H3 & _ & H5 & k1 & v1 & rest1 & _ & H7 & _ & H9 & H10).
    cbv zeta. repeat (split; [assumption|]).
    exists k1. split; assumption.
  - intros self k1 ks c1 cs g Hd Hk Hlen Hnd Hne. cbv zeta.
    pose proof (unused_pool_inv (k1 :: ks) Hk) as Hinv.
    rewrite <- Hd in Hinv.
    destruct (accesses_inv ext font size ax ay (c1 :: cs) _ self Hinv)
      as [Hinv' Hc1].
    assert (Hfull : _gaiji_areas (accesses ext font size ax ay (c1 :: cs) self)
                    = combine (k1 :: ks) (c1 :: cs)).
    { rewrite (accesses_pool ext font size ax ay (c1 :: cs) _ self Hinv), Hd.
      rewrite <- (app_nil_r (map _ (k1 :: ks))).
      rewrite lru_touch_fill.
      - replace (List.length (c1 :: cs)) with (List.length (k1 :: ks))
          by (simpl; lia).
        rewrite skipn_all, firstn_all. reflexivity.
      - change (c1 :: cs ++ [g]) with ((c1 :: cs) ++ [g]) in Hnd.
        exact (NoDup_app_remove_r _ _ Hnd).
      - intros c Hin. split; [|intros []].
        apply Hne. change (In c ((c1 :: cs) ++ [g])).
        apply in_or_app. left; exact Hin.
      - simpl. lia. }
    split; [exact Hfull|].
    rewrite Hfull in Hinv'.
    destruct (_define_gaiji_miss ext g font size ax ay font size ax ay
                (accesses ext font size ax ay (c1 :: cs) self) k1 c1
                (combine ks cs)) as (H1 & H2 & _).
    + exact Hfull.
    + rewrite Hfull. exact (inv_slots _ _ Hinv').
    + rewrite Hfull. exact (inv_occupants _ _ Hinv').
    + apply Hne. left; reflexivity.
    + rewrite Hfull, (values_combine (k1 :: ks) (c1 :: cs))
        by (simpl; lia).
      change (c1 :: cs ++ [g]) with ((c1 :: cs) ++ [g]) in Hnd.
      intros Hin. apply NoDup_remove_2 with (l' := []) in Hnd.
      apply Hnd. rewrite app_nil_r. exact Hin.
    + rewrite Hc1 in H1. split; [exact H1 | exact H2].
Qed.

Lemma miss_evicts_lru_witness :
  snd (_define_gaiji blank_ext [0x9DD7%N] "unifont_jp-16.0.03.otf" 24 2 0
         false full_three_slot_printer)
  = Ok [xec; x40]
  /\ _gaiji_areas
       (fst (_define_gaiji blank_ext [0x9DD7%N] "unifont_jp-16.0.03.otf" 24 2
               0 false full_three_slot_printer))
     = [([x41], [0x4FF1%N]); ([x42], [0x525D%N]); ([x40], [0x9DD7%N])].
Proof.
  destruct (proj1 (miss_evicts_lru blank_ext "unifont_jp-16.0.03.otf" 24 2 0)
              [0x9DD7%N] "NotoSansJP-Medium.otf"%string 24%Z 0%Z (-8)%Z
              full_three_slot_printer [x40] [0x4E02%N]
              [([x41], [0x4FF1%N]); ([x42], [0x525D%N])])
    as (H1 & H2 & _).
  - reflexivity.
  - apply distinctb_NoDup. vm_compute. reflexivity.
  - vm_compute. repeat constructor; simpl; intuition discriminate.
  - discriminate.
  - vm_compute. intuition discriminate.
  - split; [exact H1 | exact H2].
Defined.

(** * The pool invariants *)

Lemma __init___pools (cfg : Config) :
  _user_areas (__init__ cfg) = map (fun k => (k, [])) USER_AREAS_ASCII
  /\ _gaiji_areas (__init__ cfg)
     = map (fun k => (k, [])) USER_KANJI_AREAS_SJIS.
Proof. split; vm_compute; reflexivity. Qed.

Lemma fresh_areas_USER_AREAS_ASCII :
  pool_inv 95 (fresh_areas USER_AREAS_ASCII).
Proof.
  constructor.
  - vm_compute. reflexivity.
  - apply distinctb_NoDup. vm_compute. reflexivity.
  - vm_compute. constructor.
Qed.

Lemma fresh_areas_USER_KANJI_AREAS_SJIS :
  pool_inv 94 (fresh_areas USER_KANJI_AREAS_SJIS).
Proof.
  constructor.
  - vm_compute. reflexivity.
  - apply distinctb_NoDup. vm_compute. reflexivity.
  - vm_compute. constructor.
Qed.

Lemma jptext2_char_pools (ext : Externals) (c : str) (self : TM88IV)
  (n m : nat) :
  pool_inv n (_user_areas self) -> pool_inv m (_gaiji_areas self) ->
  pool_inv n (_user_areas (fst (jptext2_char ext c self)))
  /\ pool_inv m (_gaiji_areas (fst (jptext2_char ext c self))).
Proof.
  intros Hu Hg. unfold jptext2_char.
  destruct (isascii c || contains (_jis_x_0201 (config self)) c
            || contains (_jis_x_0208 (config self)) c).
  - split; assumption.
  - cbv zeta.
    destruct (contains (_jis_x_0212 (config self)) c
              || contains (_jis_x_0213 (config self)) c);
      [|destruct (is_emoji ext c)];
      cbn [p_font p_size p_adjustX p_adjustY p_asciiflg];
      match goal with
      | |- context [_define_gaiji ext c ?f ?s ?x ?y false] =>
          destruct (_define_gaiji_double_total ext c f s x y self)
            as (self' & bs & evs & E & _);
          destruct (_define_gaiji_double_pool ext c f s x y self
                      (inv_slots _ _ Hg)) as (Eg & Eu & _)
      end;
      unfold bind; rewrite E in *; cbn [fst] in *;
      unfold _raw, emit; cbn [fst _user_areas _gaiji_areas with_log];
      rewrite Eg, Eu;
      (split; [exact Hu | apply lru_touch_inv; exact Hg]).
Qed.

Lemma jptext2_loop_pools (ext : Externals) (cs : list str) (n m : nat) :
  forall self,
    pool_inv n (_user_areas self) -> pool_inv m (_gaiji_areas self) ->
    pool_inv n (_user_areas (fst (for_each cs (jptext2_char ext) self)))
    /\ pool_inv m (_gaiji_areas (fst (for_each cs (jptext2_char ext) self))).
Proof.
  induction cs as [|c cs IH]; intros self Hu Hg.
  - split; assumption.
  - cbn [for_each]. unfold bind.
    destruct (jptext2_char_pools ext c self n m Hu Hg) as [Hu1 Hg1].
    destruct (jptext2_char_total ext c self) as (s1 & e1 & E1 & _).
    rewrite E1 in *. cbn [fst] in Hu1, Hg1.
    apply IH; assumption.
Qed.

(** C8. In every printer reached from [__init__] through the methods
    the single-byte pool has 95 slots and the double-byte pool 94, no
    slot code occurs twice in a pool, and no character occupies two
    slots of a pool. *)
Theorem reachable_pool_inv (ext : Externals) (self : TM88IV) :
  reachable ext self ->
  pool_inv 95 (_user_areas self) /\ pool_inv 94 (_gaiji_areas self).
Proof.
  induction 1 as [cfg | self font size enc _ [Hu Hg]
                 | self c2 gaiji font size ax ay asciiflg _ [Hu Hg]
                 | self gaiji font size ax ay asciiflg _ [Hu Hg]
                 | self text dw dh underline wbreverse bflg _ [Hu Hg]].
  - split; [exact fresh_areas_USER_AREAS_ASCII
           | exact fresh_areas_USER_KANJI_AREAS_SJIS].
  - unfold _get_font.
    destruct (existsb _ _); split; assumption.
  - rewrite _escpos_register_gaiji_spec. split; assumption.
  - destruct asciiflg.
    + destruct (_define_gaiji_single_pool ext gaiji font size ax ay self
                  (inv_slots _ _ Hu)) as (Eu & Eg & _).
      rewrite Eu, Eg. split; [apply lru_touch_inv; exact Hu | exact Hg].
    + destruct (_define_gaiji_double_pool ext gaiji font size ax ay self
                  (inv_slots _ _ Hg)) as (Eg & Eu & _).
      rewrite Eu, Eg. split; [exact Hu | apply lru_touch_inv; exact Hg].
  - rewrite jptext2_unfold.
    pose proof (jptext2_loop_pools ext (map (fun c => [c]) text) 95 94
                  (with_log (log self
                             ++ attr_set dw dh underline wbreverse bflg) self)
                  Hu Hg) as [Hu1 Hg1].
    destruct (for_each _ _ _) as [self1 [[]|e]]; split; assumption.
Qed.

Lemma reachable_pool_inv_witness :
  pool_inv 95
    (_user_areas
       (fst (jptext2 blank_ext [0x41%N; 0x4E02%N] false false true false false
               sample_printer)))
  /\ pool_inv 94
       (_gaiji_areas
          (fst (jptext2 blank_ext [0x41%N; 0x4E02%N] false false true false
                  false sample_printer))).
Proof.
  apply (reachable_pool_inv blank_ext).
  apply reach_jptext2. apply reach_init.
Defined.


(** * Further properties *)

(** ** The single-byte pool *)

(** X1. A definition in the single-byte pool rasterises a 12x24 glyph
    and sends ESC & 0x03 with the slot code twice, then the width byte
    0x0C, then the 36 packed bytes. *)
Theorem single_byte_definition_command (ext : Externals) (c2 : bytes)
  (gaiji : str) (font : string) (size ax ay : Z) (self : TM88IV) :
  exists bitmap : bytes,
    pack (glyph_image ext gaiji font size ax ay true)
    = Ok (map (fun b => [b]) bitmap)
    /\ List.length bitmap = 36
    /\ snd (_escpos_register_gaiji ext c2 gaiji font size ax ay true self)
       = Ok tt
    /\ log (fst (_escpos_register_gaiji ext c2 gaiji font size ax ay true
                   self))
       = log self
         ++ DrawText 12 24 font size ax ay gaiji
         :: Raw (ESC ++ ["&"%byte] ++ [x03] ++ c2 ++ c2)
         :: Raw [x0c]
         :: map (fun b => Raw [b]) bitmap
    /\ stream (log (fst (_escpos_register_gaiji ext c2 gaiji font size ax ay
                           true self)))
       = stream (log self) ++ [x1b; "&"%byte; x03] ++ c2 ++ c2 ++ [x0c]
         ++ bitmap.
Proof.
  exists (packed (glyph_image ext gaiji font size ax ay true) 3).
  rewrite _escpos_register_gaiji_spec. cbn [fst snd].
  split; [apply pack_packed; reflexivity|].
  split; [apply length_packed_from|].
  split; [reflexivity|].
  split; [reflexivity|].
  cbn [log with_log]. rewrite stream_app.
  unfold definition_events, definition_command. cbn [stream app].
  rewrite stream_raw_bytes. unfold ESC. cbn [app].
  rewrite <- !app_assoc. reflexivity.
Qed.

(** X2. In the single-byte pool a hit moves the slot found to the most
    recently used end before TypeError is raised, and sends nothing; a
    miss takes over the first slot, moves it to the end and defines the
    glyph there with ESC &. The double-byte pool is not touched. *)
Theorem single_byte_pool_effect (ext : Externals) (gaiji : str)
  (font : string) (size ax ay : Z) (self : TM88IV) :
  NoDup (OrderedDict.keys (_user_areas self)) ->
  (forall k d1 d2,
     _user_areas self = d1 ++ (k, gaiji) :: d2 ->
     ~ In gaiji (OrderedDict.values d1) ->
     _define_gaiji ext gaiji font size ax ay true self
     = (with_user_areas (d1 ++ d2 ++ [(k, gaiji)]) self, Raise TypeError))
  /\ (forall k0 v0 rest,
        _user_areas self = (k0, v0) :: rest ->
        ~ In gaiji (OrderedDict.values (_user_areas self)) ->
        let self' := fst (_define_gaiji ext gaiji font size ax ay true self) in
        _user_areas self' = rest ++ [(k0, gaiji)]
        /\ _gaiji_areas self' = _gaiji_areas self
        /\ log self'
           = log self
             ++ DrawText 12 24 font size ax ay gaiji
             :: Raw (ESC ++ ["&"%byte] ++ [x03] ++ k0 ++ k0)
             :: Raw [x0c]
             :: map (fun b => Raw [b])
                  (packed (glyph_image ext gaiji font size ax ay true) 3)).
Proof.
  intros Hk. split.
  - intros k d1 d2 Hd Hn.
    rewrite _define_gaiji_single by exact Hk. rewrite Hd in Hk |- *.
    destruct (lru_touch_hit _ _ _ _ Hk Hn) as [-> ->]. reflexivity.
  - intros k0 v0 rest Hd Hn. cbv zeta.
    rewrite _define_gaiji_single by exact Hk.
    pose proof Hn as F. apply find_gaiji_None in F. rewrite F.
    rewrite Hd in Hn |- *. rewrite (lru_touch_miss _ _ _ _ Hn).
    repeat split.
Qed.

Lemma single_byte_pool_effect_witness :
  _user_areas
    (fst (_define_gaiji blank_ext [0x4E02%N] "NotoSansJP-Medium.otf" 24 0
            (-8) true
            (with_user_areas [([x20], [0x4E02%N]); ([x21], [])]
               no_slot_printer)))
  = [([x21], []); ([x20], [0x4E02%N])].
Proof.
  rewrite (proj1 (single_byte_pool_effect blank_ext [0x4E02%N]
                    "NotoSansJP-Medium.otf" 24 0 (-8)
                    (with_user_areas [([x20], [0x4E02%N]); ([x21], [])]
                       no_slot_printer)
                    ltac:(apply distinctb_NoDup; vm_compute; reflexivity))
             [x20] [] [([x21], [])] eq_refl ltac:(intros [])).
  reflexivity.
Defined.

(** ** The font cache *)

Lemma font_key_eqb_eq (a b : string * Z * string) :
  font_key_eqb a b = true <-> a = b.
Proof.
  destruct a as [[p1 s1] e1], b as [[p2 s2] e2]. unfold font_key_eqb.
  rewrite !andb_true_iff, !String.eqb_eq, Z.eqb_eq. split.
  - intros [[-> ->] ->]. reflexivity.
  - intros E. injection E. auto.
Qed.

Lemma cache_add_In (key : string * Z * string)
  (cache : list (string * Z * string)) :
  In key (cache_add key cache)
  /\ (forall k, In k cache -> In k (cache_add key cache))
  /\ (NoDup cache -> NoDup (cache_add key cache))
  /\ cache_add key (cache_add key cache) = cache_add key cache.
Proof.
  unfold cache_add.
  destruct (existsb (font_key_eqb key) cache) eqn:E.
  - rewrite E. apply existsb_exists in E. destruct E as (k & Hin & Hk).
    apply font_key_eqb_eq in Hk. subst. auto.
  - assert (Hn : ~ In key cache).
    { intros Hin. apply Bool.not_true_iff_false in E. apply E.
      apply existsb_exists. exists key. split; [exact Hin|].
      apply font_key_eqb_eq. reflexivity. }
    assert (E' : existsb (font_key_eqb key) (cache ++ [key]) = true).
    { apply existsb_exists. exists key. split.
      - apply in_or_app. right. left. reflexivity.
      - apply font_key_eqb_eq. reflexivity. }
    rewrite E'. repeat split.
    + apply in_or_app. right. left. reflexivity.
    + intros k Hin. apply in_or_app. left. exact Hin.
    + intros Hnd. apply NoDup_snoc; assumption.
Qed.

Lemma _get_font_spec (font : string) (size : Z) (enc : string)
  (self : TM88IV) :
  _get_font font size enc self
  = (with_font_cache (cache_add (font, size, enc) (_font_cache self)) self,
     Ok tt).
Proof.
  unfold _get_font, cache_add, set_font_cache.
  destruct (existsb _ _); [destruct self|]; reflexivity.
Qed.

(** X3. [_get_font] keeps a font object per key (path, size, encoding):
    after a call the key is cached, keys cached before stay, no key is
    cached twice, a second call for the key changes nothing, and nothing
    but the cache is touched. A glyph definition caches the key of its
    font with the encoding 'unic'. *)
Theorem _get_font_caches_once (ext : Externals) (font : string) (size : Z)
  (enc : string) (self : TM88IV) :
  let self' := fst (_get_font font size enc self) in
  In (font, size, enc) (_font_cache self')
  /\ (forall k, In k (_font_cache self) -> In k (_font_cache self'))
  /\ (NoDup (_font_cache self) -> NoDup (_font_cache self'))
  /\ _get_font font size enc self' = (self', Ok tt)
  /\ self' = with_font_cache (_font_cache self') self
  /\ (forall c2 gaiji ax ay asciiflg,
        In (font, size, "unic"%string)
          (_font_cache
             (fst (_escpos_register_gaiji ext c2 gaiji font size ax ay
                     asciiflg self)))).
Proof.
  cbv zeta. rewrite _get_font_spec. cbn [fst _font_cache with_font_cache].
  destruct (cache_add_In (font, size, enc) (_font_cache self))
    as (H1 & H2 & H3 & H4).
  split; [exact H1|]. split; [exact H2|]. split; [exact H3|].
  split.
  { rewrite _get_font_spec. cbn [_font_cache with_font_cache].
    rewrite H4. reflexivity. }
  split; [reflexivity|].
  intros c2 gaiji ax ay asciiflg.
  rewrite _escpos_register_gaiji_spec.
  cbn [fst _font_cache with_font_cache with_log].
  exact (proj1 (cache_add_In _ _)).
Qed.

Lemma _get_font_caches_once_witness :
  _font_cache (fst (_get_font "NotoSansJP-Medium.otf" 24 "unic"
                      (fst (_get_font "NotoSansJP-Medium.otf" 24 "unic"
                              no_slot_printer))))
  = [("NotoSansJP-Medium.otf"%string, 24%Z, "unic"%string)].
Proof.
  destruct (_get_font_caches_once blank_ext "NotoSansJP-Medium.otf" 24 "unic"
              no_slot_printer) as (_ & _ & _ & H & _).
  cbv zeta in H. rewrite H. reflexivity.
Defined.

(** ** Frames: what the methods leave alone *)

Lemma extends_refl (s : TM88IV) : extends s s.
Proof.
  constructor; try reflexivity.
  exists []. rewrite app_nil_r. reflexivity.
Qed.

Lemma extends_trans (s1 s2 s3 : TM88IV) :
  extends s1 s2 -> extends s2 s3 -> extends s1 s3.
Proof.
  intros [C1 H1 [e1 L1] U1 G1] [C2 H2 [e2 L2] U2 G2]. constructor.
  - congruence.
  - congruence.
  - exists (e1 ++ e2). rewrite L2, L1, app_assoc. reflexivity.
  - exact (Permutation_trans U1 U2).
  - exact (Permutation_trans G1 G2).
Qed.

Lemma extends_with_log (s : TM88IV) (evs : list event) :
  extends s (with_log (log s ++ evs) s).
Proof.
  constructor; try reflexivity. exists evs. reflexivity.
Qed.

Lemma lru_touch_keys (gaiji : str) (d : pool) :
  NoDup (OrderedDict.keys d) ->
  Permutation (OrderedDict.keys d) (OrderedDict.keys (lru_touch gaiji d)).
Proof.
  intros Hk.
  destruct (find_gaiji gaiji d) as [k|] eqn:F.
  - destruct (find_gaiji_Some _ _ _ F) as (d1 & d2 & -> & Hn).
    destruct (lru_touch_hit _ _ _ _ Hk Hn) as [_ ->].
    rewrite !keys_app. cbn [OrderedDict.keys map fst].
    apply Permutation_app_head. apply Permutation_cons_append.
  - destruct d as [|[k v] d]; [unfold lru_touch; rewrite F; reflexivity|].
    apply find_gaiji_None in F. rewrite (lru_touch_miss _ _ _ _ F).
    rewrite keys_app. apply Permutation_cons_append.
Qed.

Lemma _escpos_register_gaiji_extends (ext : Externals) (c2 : bytes)
  (gaiji : str) (font : string) (size ax ay : Z) (asciiflg : bool)
  (self : TM88IV) :
  extends self
    (fst (_escpos_register_gaiji ext c2 gaiji font size ax ay asciiflg self)).
Proof.
  rewrite _escpos_register_gaiji_spec. constructor; try reflexivity.
  eexists. reflexivity.
Qed.

Ltac frame P :=
  constructor;
  cbn [fst config _c1 log _user_areas _gaiji_areas with_log with_font_cache
       with_gaiji_areas with_user_areas];
  [ reflexivity
  | reflexivity
  | first [ eexists; reflexivity
          | exists []; rewrite app_nil_r; reflexivity ]
  | first [ exact P
          | match goal with H : _ = _ |- _ => rewrite <- H; exact P end
          | reflexivity ]
  | first [ exact P
          | match goal with H : _ = _ |- _ => rewrite <- H; exact P end
          | reflexivity ] ].

Lemma _define_gaiji_extends (ext : Externals) (gaiji : str) (font : string)
  (size ax ay : Z) (asciiflg : bool) (self : TM88IV) :
  NoDup (OrderedDict.keys (_user_areas self)) ->
  NoDup (OrderedDict.keys (_gaiji_areas self)) ->
  extends self (fst (_define_gaiji ext gaiji font size ax ay asciiflg self)).
Proof.
  intros Hu Hg. destruct asciiflg.
  - rewrite _define_gaiji_single by exact Hu.
    pose proof (lru_touch_keys gaiji _ Hu) as P.
    destruct (find_gaiji gaiji (_user_areas self)) as [k|]; [frame P|].
    remember (_user_areas self) as d eqn:Hd.
    destruct d as [|[k v] d]; [apply extends_refl | frame P].
  - rewrite _define_gaiji_double by exact Hg.
    pose proof (lru_touch_keys gaiji _ Hg) as P.
    destruct (find_gaiji gaiji (_gaiji_areas self)) as [k|]; [frame P|].
    remember (_gaiji_areas self) as d eqn:Hd.
    destruct d as [|[k v] d]; [apply extends_refl | frame P].
Qed.

Lemma jptext2_char_rule (ext : Externals) (c : str) (self : TM88IV) :
  jptext2_char ext c self
  = emit_classified ext
      (classification_of (config self) (char_rule ext (config self) c)) c
      self.
Proof.
  unfold jptext2_char, char_rule, builtin_char.
  destruct (isascii c || contains (_jis_x_0201 (config self)) c
            || contains (_jis_x_0208 (config self)) c); [reflexivity|].
  destruct (contains (_jis_x_0212 (config self)) c
            || contains (_jis_x_0213 (config self)) c); [reflexivity|].
  destruct (is_emoji ext c); reflexivity.
Qed.

(** What the loop does with a character that needs a custom glyph *)
Lemma emit_custom_effect (ext : Externals) (font : string)
  (size ax ay : Z) (c : str) (self : TM88IV) :
  NoDup (OrderedDict.keys (_gaiji_areas self)) ->
  emit_classified ext (CustomGlyph font size ax ay) c self
  = match find_gaiji c (_gaiji_areas self) with
    | Some k =>
        (with_log (log self ++ [Raw (_c1 self ++ k)])
           (with_gaiji_areas (lru_touch c (_gaiji_areas self)) self), Ok tt)
    | None =>
        match _gaiji_areas self with
        | [] => (with_log (log self ++ [Raw []]) self, Ok tt)
        | (k, _) :: _ =>
            (with_log
               (log self
                ++ definition_events ext (_c1 self) k c font size ax ay false
                ++ [Raw (_c1 self ++ k)])
               (with_font_cache
                  (cache_add (font, size, "unic"%string) (_font_cache self))
                  (with_gaiji_areas (lru_touch c (_gaiji_areas self)) self)),
             Ok tt)
        end
    end.
Proof.
  intros Hk. unfold emit_classified, bind.
  rewrite _define_gaiji_double by exact Hk.
  destruct (find_gaiji c (_gaiji_areas self)) as [k|]; [reflexivity|].
  destruct (_gaiji_areas self) as [|[k v] d]; [reflexivity|].
  unfold _raw, emit, with_log. cbn [config _user_areas _gaiji_areas
    _font_cache _c1 log with_font_cache with_gaiji_areas].
  rewrite <- app_assoc. reflexivity.
Qed.

Lemma jptext2_char_extends (ext : Externals) (c : str) (self : TM88IV) :
  NoDup (OrderedDict.keys (_gaiji_areas self)) ->
  snd (jptext2_char ext c self) = Ok tt
  /\ _user_areas (fst (jptext2_char ext c self)) = _user_areas self
  /\ extends self (fst (jptext2_char ext c self)).
Proof.
  intros Hk. rewrite jptext2_char_rule.
  pose proof (lru_touch_keys c _ Hk) as P.
  destruct (char_rule ext (config self) c); cbn [classification_of];
    [ cbn [emit_classified]; unfold _raw, emit; cbn [fst snd];
      split; [reflexivity | split; [reflexivity | apply extends_with_log]]
    | rewrite emit_custom_effect by exact Hk ..];
    (destruct (find_gaiji c (_gaiji_areas self)) as [k|];
     [ split; [reflexivity | split; [reflexivity | frame P]] |]);
    (remember (_gaiji_areas self) as d eqn:Hd;
     destruct d as [|[k v] d];
     [ split; [reflexivity | split; [reflexivity | apply extends_with_log]]
     | split; [reflexivity | split; [reflexivity | frame P]] ]).
Qed.

Lemma extends_NoDup (s s' : TM88IV) :
  extends s s' ->
  NoDup (OrderedDict.keys (_user_areas s)) ->
  NoDup (OrderedDict.keys (_gaiji_areas s)) ->
  NoDup (OrderedDict.keys (_user_areas s'))
  /\ NoDup (OrderedDict.keys (_gaiji_areas s')).
Proof.
  intros E Hu Hg. split.
  - exact (Permutation_NoDup (ext_user_keys _ _ E) Hu).
  - exact (Permutation_NoDup (ext_gaiji_keys _ _ E) Hg).
Qed.

Lemma jptext2_loop_extends (ext : Externals) (cs : list str) :
  forall self,
    NoDup (OrderedDict.keys (_gaiji_areas self)) ->
    snd (for_each cs (jptext2_char ext) self) = Ok tt
    /\ _user_areas (fst (for_each cs (jptext2_char ext) self))
       = _user_areas self
    /\ extends self (fst (for_each cs (jptext2_char ext) self)).
Proof.
  induction cs as [|c cs IH]; intros self Hk.
  - cbn [for_each ret fst snd]. repeat split; try reflexivity.
    apply extends_refl.
  - cbn [for_each]. unfold bind.
    destruct (jptext2_char_extends ext c self Hk) as (R & U & E).
    destruct (jptext2_char ext c self) as [s1 r1]. cbn [fst snd] in R, U, E.
    subst r1.
    assert (Hk1 : NoDup (OrderedDict.keys (_gaiji_areas s1)))
      by exact (Permutation_NoDup (ext_gaiji_keys _ _ E) Hk).
    destruct (IH s1 Hk1) as (R' & U' & E').
    split; [exact R'|]. split; [congruence|].
    exact (extends_trans _ _ _ E E').
Qed.

Lemma jptext2_extends (ext : Externals) (text : str)
  (dw dh underline wbreverse bflg : bool) (self : TM88IV) :
  NoDup (OrderedDict.keys (_gaiji_areas self)) ->
  snd (jptext2 ext text dw dh underline wbreverse bflg self) = Ok tt
  /\ _user_areas (fst (jptext2 ext text dw dh underline wbreverse bflg self))
     = _user_areas self
  /\ extends self
       (fst (jptext2 ext text dw dh underline wbreverse bflg self)).
Proof.
  intros Hk. rewrite jptext2_unfold.
  set (s0 := with_log (log self ++ attr_set dw dh underline wbreverse bflg)
               self).
  destruct (jptext2_loop_extends ext (map (fun c => [c]) text) s0 Hk)
    as (R & U & E).
  destruct (for_each _ _ s0) as [s1 r1]. cbn [fst snd] in R, U, E. subst r1.
  cbn [fst snd]. split; [reflexivity|]. split; [exact U|].
  exact (extends_trans _ _ _
           (extends_with_log self (attr_set dw dh underline wbreverse bflg))
           (extends_trans _ _ _ E
              (extends_with_log s1
                 (attr_clear dw dh underline wbreverse bflg)))).
Qed.



(** ** Printers reached from __init__ *)

Lemma _get_font_extends (font : string) (size : Z) (enc : string)
  (self : TM88IV) :
  extends self (fst (_get_font font size enc self)).
Proof.
  rewrite _get_font_spec. constructor; try reflexivity.
  exists []. rewrite app_nil_r. reflexivity.
Qed.

Lemma reachable_extends (ext : Externals) (self : TM88IV) :
  reachable ext self -> extends (__init__ (config self)) self.
Proof.
  assert (Hinit : forall cfg,
            NoDup (OrderedDict.keys (_user_areas (__init__ cfg)))
            /\ NoDup (OrderedDict.keys (_gaiji_areas (__init__ cfg)))).
  { intros cfg. split.
    - exact (inv_slots _ _ fresh_areas_USER_AREAS_ASCII).
    - exact (inv_slots _ _ fresh_areas_USER_KANJI_AREAS_SJIS). }
  assert (Step : forall s s',
            extends (__init__ (config s)) s -> extends s s' ->
            extends (__init__ (config s')) s').
  { intros s s' E E'. rewrite (ext_config _ _ E').
    exact (extends_trans _ _ _ E E'). }
  induction 1 as [cfg | self font size enc _ IH
                 | self c2 gaiji font size ax ay asciiflg _ IH
                 | self gaiji font size ax ay asciiflg _ IH
                 | self text dw dh underline wbreverse bflg _ IH].
  - apply extends_refl.
  - apply (Step self); [exact IH | apply _get_font_extends].
  - apply (Step self); [exact IH | apply _escpos_register_gaiji_extends].
  - destruct (Hinit (config self)) as [Hu Hg].
    destruct (extends_NoDup _ _ IH Hu Hg) as [Hu' Hg'].
    apply (Step self); [exact IH | apply _define_gaiji_extends; assumption].
  - destruct (Hinit (config self)) as [Hu Hg].
    destruct (extends_NoDup _ _ IH Hu Hg) as [Hu' Hg'].
    apply (Step self); [exact IH|].
    exact (proj2 (proj2 (jptext2_extends ext text dw dh underline wbreverse
                           bflg self Hg'))).
Qed.

(** X5. Whatever was done with a printer since [__init__], the bytes it
    received start with ESC t 1, FS &, FS C 1 (katakana page, kanji
    mode, Shift JIS), and the high byte of the custom codes is 0xEC. *)
Theorem reachable_stream_starts_with_init (ext : Externals) (self : TM88IV) :
  reachable ext self ->
  _c1 self = [xec]
  /\ exists rest, stream (log self) = init_stream ++ rest.
Proof.
  intros H. destruct (reachable_extends _ _ H) as [_ Hc [evs Hl] _ _].
  split; [exact Hc|].
  exists (stream evs). rewrite Hl, stream_app. reflexivity.
Qed.

Lemma reachable_stream_starts_with_init_witness :
  exists rest,
    stream (log (fst (jptext2 blank_ext [0x41%N] false false false false false
                        sample_printer)))
    = init_stream ++ rest.
Proof.
  apply (reachable_stream_starts_with_init blank_ext).
  apply reach_jptext2. apply reach_init.
Defined.

Lemma USER_KANJI_AREAS_SJIS_single (k : bytes) :
  In k USER_KANJI_AREAS_SJIS -> exists b, k = [b].
Proof.
  assert (F : Forall (fun k => exists b : byte, k = [b])
                USER_KANJI_AREAS_SJIS)
    by (repeat (constructor; [eexists; reflexivity|]); constructor).
  intros H. exact (proj1 (Forall_forall _ _) F k H).
Qed.



(** ** The print loop on whole texts *)

Lemma for_each_app {A} (l1 l2 : list A) (body : A -> M unit) (self : TM88IV) :
  for_each (l1 ++ l2) body self
  = match for_each l1 body self with
    | (s1, Ok _) => for_each l2 body s1
    | (s1, Raise e) => (s1, Raise e)
    end.
Proof.
  revert self; induction l1 as [|a l1 IH]; intros self; [reflexivity|].
  cbn [app for_each]. unfold bind at 1 2.
  destruct (body a self) as [s [[]|e]]; [apply IH | reflexivity].
Qed.

Lemma attr_none (bflg : bool) :
  attr_set false false false false bflg = []
  /\ attr_clear false false false false bflg = [].
Proof. split; reflexivity. Qed.

(** X7. Without print attributes, printing a text in two calls is the
    same as printing it in one: same bytes sent, same pools, same font
    cache. *)
Theorem jptext2_app (ext : Externals) (t1 t2 : str) (b b1 b2 : bool)
  (self : TM88IV) :
  jptext2 ext (t1 ++ t2) false false false false b self
  = jptext2 ext t2 false false false false b2
      (fst (jptext2 ext t1 false false false false b1 self)).
Proof.
  rewrite !jptext2_unfold.
  rewrite (proj1 (attr_none b)), (proj1 (attr_none b1)),
    (proj1 (attr_none b2)), (proj2 (attr_none b)), (proj2 (attr_none b1)),
    (proj2 (attr_none b2)).
  rewrite app_nil_r, with_log_log, map_app, for_each_app.
  destruct (jptext2_loop_total ext t1 self) as (s1 & e1 & E1 & _).
  rewrite E1. cbn [fst].
  rewrite !app_nil_r, !with_log_log. reflexivity.
Qed.

Lemma encode_cp932_ignore_app (ext : Externals) (s1 s2 : str) :
  encode_cp932_ignore ext (s1 ++ s2)
  = encode_cp932_ignore ext s1 ++ encode_cp932_ignore ext s2.
Proof. unfold encode_cp932_ignore. apply flat_map_app. Qed.

Lemma jptext2_loop_builtin (ext : Externals) (text : str) :
  forall self,
    (forall c, In c text -> builtin_char (config self) [c] = true) ->
    for_each (map (fun c => [c]) text) (jptext2_char ext) self
    = (with_log
         (log self ++ map (fun c => Raw (encode_cp932_ignore ext [c])) text)
         self, Ok tt).
Proof.
  induction text as [|c text IH]; intros self H.
  - cbn [map for_each ret]. rewrite app_nil_r, with_log_log. reflexivity.
  - cbn [map for_each]. unfold bind.
    rewrite jptext2_char_rule. unfold char_rule.
    rewrite (H c (or_introl eq_refl)).
    cbn [classification_of emit_classified]. unfold _raw, emit.
    rewrite IH by (intros c' Hc'; apply H; right; exact Hc').
    cbn [log with_log]. rewrite <- app_assoc. reflexivity.
Qed.

(** X8. A text of built-in characters only (ASCII, JIS X 0201, JIS X
    0208) is sent as its cp932 encoding, one [_raw] per character,
    between the attribute commands; no pool, no font and no rasteriser
    is involved. *)
Theorem jptext2_builtin_text (ext : Externals) (text : str)
  (dw dh underline wbreverse bflg : bool) (self : TM88IV) :
  (forall c, In c text -> builtin_char (config self) [c] = true) ->
  jptext2 ext text dw dh underline wbreverse bflg self
  = (with_log
       (log self ++ attr_set dw dh underline wbreverse bflg
        ++ map (fun c => Raw (encode_cp932_ignore ext [c])) text
        ++ attr_clear dw dh underline wbreverse bflg) self, Ok tt)
  /\ stream (log (fst (jptext2 ext text dw dh underline wbreverse bflg self)))
     = stream (log self)
       ++ stream (attr_set dw dh underline wbreverse bflg)
       ++ encode_cp932_ignore ext text
       ++ stream (attr_clear dw dh underline wbreverse bflg).
Proof.
  intros H.
  assert (E : jptext2 ext text dw dh underline wbreverse bflg self
              = (with_log
                   (log self ++ attr_set dw dh underline wbreverse bflg
                    ++ map (fun c => Raw (encode_cp932_ignore ext [c])) text
                    ++ attr_clear dw dh underline wbreverse bflg) self,
                 Ok tt)).
  { rewrite jptext2_unfold, jptext2_loop_builtin by exact H.
    cbn [log with_log]. rewrite <- !app_assoc. reflexivity. }
  split; [exact E|]. rewrite E. cbn [fst log with_log].
  rewrite !stream_app. do 2 f_equal. f_equal.
  clear. induction text as [|c text IH]; [reflexivity|].
  cbn [map stream]. rewrite IH.
  change (c :: text) with ([c] ++ text).
  rewrite (encode_cp932_ignore_app ext [c] text). reflexivity.
Qed.

Lemma jptext2_builtin_text_witness :
  stream (log (fst (jptext2 blank_ext [0x41%N; 0xA5%N; 0x42%N] false false
                      true false false no_slot_printer)))
  = [x1c; "!"%byte; x80; x41; x42; x1c; "!"%byte; x00].
Proof.
  rewrite (proj2 (jptext2_builtin_text blank_ext [0x41%N; 0xA5%N; 0x42%N]
                    false false true false false no_slot_printer
                    ltac:(intros c [<-|[<-|[<-|[]]]]; reflexivity))).
  reflexivity.
Defined.

Lemma reachable_gaiji_pool (ext : Externals) (self : TM88IV) :
  reachable ext self ->
  _c1 self = [xec]
  /\ NoDup (OrderedDict.keys (_gaiji_areas self))
  /\ List.length (_gaiji_areas self) = 94
  /\ (forall k, In k (OrderedDict.keys (_gaiji_areas self)) ->
      exists b, k = [b] /\ In [b] USER_KANJI_AREAS_SJIS).
Proof.
  intros H. destruct (reachable_extends _ _ H) as [_ Hc _ _ G].
  rewrite (proj2 (__init___pools (config self))) in G.
  unfold OrderedDict.keys in G at 1. rewrite map_map in G. cbn [fst] in G.
  rewrite map_id in G.
  split; [exact Hc|]. split; [|split].
  - apply (Permutation_NoDup G). apply distinctb_NoDup.
    vm_compute. reflexivity.
  - apply Permutation_length in G. unfold OrderedDict.keys in G.
    rewrite length_map in G. rewrite <- G. reflexivity.
  - intros k Hin. apply (Permutation_in _ (Permutation_sym G)) in Hin.
    destruct (USER_KANJI_AREAS_SJIS_single k Hin) as [b ->].
    exists b. split; [reflexivity | exact Hin].
Qed.

Lemma char_rule_custom (ext : Externals) (cfg : Config) (c : str) :
  builtin_char cfg c = false ->
  exists font size ax ay,
    classification_of cfg (char_rule ext cfg c) = CustomGlyph font size ax ay.
Proof.
  intros H. unfold char_rule. rewrite H.
  destruct (contains (_jis_x_0212 cfg) c || contains (_jis_x_0213 cfg) c);
    [|destruct (is_emoji ext c)]; cbn [classification_of];
    eexists _, _, _, _; reflexivity.
Qed.

(** X9. On a printer reached from [__init__], a character that is not
    built in costs two bytes when it is resident (0xEC and its slot
    code) and 78 bytes otherwise: FS 2 0xEC slot and the 72 bitmap bytes
    of one rasterisation come first, the two selection bytes last. In
    both cases the selected slot is the one that holds the character
    afterwards, at the most recently used end. *)
Theorem jptext2_char_custom (ext : Externals) (self : TM88IV) (c : str) :
  reachable ext self ->
  builtin_char (config self) c = false ->
  let self' := fst (jptext2_char ext c self) in
  exists (b : byte) (rest : pool) (bitmap : bytes),
    In [b] USER_KANJI_AREAS_SJIS
    /\ List.length bitmap = 72
    /\ _gaiji_areas self' = rest ++ [([b], c)]
    /\ (In c (OrderedDict.values (_gaiji_areas self)) ->
        stream (log self') = stream (log self) ++ [xec; b]
        /\ draw_count (log self') = draw_count (log self))
    /\ (~ In c (OrderedDict.values (_gaiji_areas self)) ->
        stream (log self')
        = stream (log self) ++ [x1c; "2"%byte; xec; b] ++ bitmap ++ [xec; b]
        /\ draw_count (log self') = S (draw_count (log self))).
Proof.
  intros Hr Hb. cbv zeta.
  destruct (reachable_gaiji_pool ext self Hr) as (Hc & Hk & Hlen & Hkeys).
  destruct (char_rule_custom ext (config self) c Hb)
    as (font & size & ax & ay & Hcl).
  rewrite jptext2_char_rule, Hcl, emit_custom_effect by exact Hk.
  rewrite Hc.
  destruct (find_gaiji c (_gaiji_areas self)) as [k|] eqn:F.
  - destruct (find_gaiji_Some _ _ _ F) as (d1 & d2 & Hd & Hn).
    destruct (Hkeys k) as (b & -> & Hin).
    { rewrite Hd, keys_app. apply in_or_app. right. left. reflexivity. }
    exists b, (d1 ++ d2),
      (packed (glyph_image ext c font size ax ay false) 3).
    split; [exact Hin|]. split; [apply length_packed_from|].
    cbn [fst log _gaiji_areas with_log with_gaiji_areas].
    split.
    { rewrite Hd in Hk |- *.
      destruct (lru_touch_hit _ _ _ _ Hk Hn) as [_ ->]. apply app_assoc. }
    split.
    + intros _. rewrite stream_app, draw_count_app. cbn [stream draw_count app].
      split; [reflexivity | lia].
    + intros Hnot. exfalso. apply Hnot. rewrite Hd, values_app.
      apply in_or_app. right. left. reflexivity.
  - destruct (_gaiji_areas self) as [|[k v] d] eqn:Hd;
      [simpl in Hlen; discriminate|].
    destruct (Hkeys k (or_introl eq_refl)) as (b & -> & Hin).
    apply find_gaiji_None in F.
    exists b, d, (packed (glyph_image ext c font size ax ay false) 3).
    split; [exact Hin|]. split; [apply length_packed_from|].
    cbn [fst log _gaiji_areas with_log with_gaiji_areas with_font_cache].
    split; [exact (lru_touch_miss _ _ _ _ F)|].
    split; [intros Hyes; contradiction|].
    intros _. rewrite !stream_app, !draw_count_app.
    rewrite draw_count_definition_events.
    unfold definition_events, definition_command. cbn [stream draw_count app].
    rewrite stream_raw_bytes. split; [|lia].
    unfold FS. cbn [app]. rewrite <- ?app_assoc. reflexivity.
Qed.

Lemma jptext2_char_custom_witness :
  exists (b : byte) (rest : pool) (bitmap : bytes),
    List.length bitmap = 72
    /\ _gaiji_areas (fst (jptext2_char blank_ext [0x4E02%N] sample_printer))
       = rest ++ [([b], [0x4E02%N])]
    /\ stream (log (fst (jptext2_char blank_ext [0x4E02%N] sample_printer)))
       = stream (log sample_printer) ++ [x1c; "2"%byte; xec; b] ++ bitmap
         ++ [xec; b].
Proof.
  destruct (jptext2_char_custom blank_ext sample_printer [0x4E02%N]
              (reach_init blank_ext sample_config) eq_refl)
    as (b & rest & bitmap & _ & Hl & Hp & _ & Hmiss).
  exists b, rest, bitmap. split; [exact Hl|]. split; [exact Hp|].
  refine (proj1 (Hmiss _)). apply find_gaiji_None. vm_compute. reflexivity.
Defined.

(** ** The working set of the double-byte pool *)

Lemma occupants_all (t : pool) :
  (forall x, In x (OrderedDict.values t) -> x <> []) ->
  occupants t = OrderedDict.values t.
Proof.
  unfold occupants. induction t as [|[k v] t IH]; intros H; [reflexivity|].
  cbn [OrderedDict.values map snd filter] in *.
  destruct (str_eqb v []) eqn:E.
  - apply str_eqb_eq in E. exfalso. exact (H v (or_introl eq_refl) E).
  - cbn [negb]. f_equal. apply IH. intros x Hx. apply H. right. exact Hx.
Qed.

(** One reference keeps the recently referenced characters at the end
    of the pool, as long as they are no more than the pool has slots. *)
Lemma lru_touch_recent (ws seen : list str) (n : nat) (g : str)
  (u t : pool) :
  pool_inv n (u ++ t) ->
  (forall x, In x (OrderedDict.values t) <-> In x seen) ->
  NoDup ws -> List.length ws <= n ->
  (forall x, In x seen -> x <> [] /\ In x ws) ->
  g <> [] -> In g ws ->
  exists u' t',
    lru_touch g (u ++ t) = u' ++ t'
    /\ (forall x, In x (OrderedDict.values t') <-> In x (g :: seen)).
Proof.
  intros Hinv Hseen Hws Hlen Hin Hg Hgw.
  pose proof (inv_slots _ _ Hinv) as Hk.
  destruct (find_gaiji g u) as [k|] eqn:Fu.
  - (* resident among the older slots *)
    destruct (find_gaiji_Some _ _ _ Fu) as (u1 & u2 & -> & Hn).
    rewrite <- app_assoc in Hk |- *. cbn [app] in Hk |- *.
    destruct (lru_touch_hit _ _ _ _ Hk Hn) as [_ ->].
    exists (u1 ++ u2), (t ++ [(k, g)]). split.
    + rewrite <- !app_assoc. reflexivity.
    + intros x. rewrite values_app, in_app_iff, Hseen. simpl. tauto.
  - apply find_gaiji_None in Fu.
    destruct (find_gaiji g t) as [k|] eqn:Ft.
    + (* resident among the recent slots *)
      destruct (find_gaiji_Some _ _ _ Ft) as (t1 & t2 & -> & Hn).
      assert (Hn' : ~ In g (OrderedDict.values (u ++ t1)))
        by (rewrite values_app, in_app_iff; tauto).
      rewrite app_assoc in Hk |- *.
      destruct (lru_touch_hit _ _ _ _ Hk Hn') as [_ ->].
      exists u, (t1 ++ t2 ++ [(k, g)]). split.
      * rewrite <- !app_assoc. reflexivity.
      * intros x. cbn [In]. rewrite <- (Hseen x).
        rewrite !values_app, !in_app_iff. simpl.
        intuition (subst; auto).
    + (* not resident *)
      apply find_gaiji_None in Ft.
      assert (Hnot : ~ In g (OrderedDict.values (u ++ t)))
        by (rewrite values_app, in_app_iff; tauto).
      destruct u as [|[k v] u].
      * (* the recent slots fill the pool: impossible *)
        exfalso. cbn [app] in *.
        assert (Hne : forall x, In x (OrderedDict.values t) -> x <> [])
          by (intros x Hx; apply Hin, Hseen; exact Hx).
        pose proof (inv_occupants _ _ Hinv) as Ho.
        rewrite (occupants_all t Hne) in Ho.
        assert (Hnd : NoDup (g :: OrderedDict.values t))
          by (constructor; assumption).
        assert (Hincl : incl (g :: OrderedDict.values t) ws).
        { intros x [<-|Hx]; [exact Hgw|]. apply Hin, Hseen. exact Hx. }
        pose proof (NoDup_incl_length Hnd Hincl) as L.
        pose proof (inv_capacity _ _ Hinv) as C.
        cbn [List.length] in L. unfold OrderedDict.values in L.
        rewrite length_map in L. lia.
      * cbn [app] in *. rewrite (lru_touch_miss _ _ _ _ Hnot).
        exists u, (t ++ [(k, g)]). split.
        -- rewrite <- app_assoc. reflexivity.
        -- intros x. rewrite values_app, in_app_iff, Hseen. simpl. tauto.
Qed.

Lemma touch_all_recent (ws : list str) (n : nat) (gs : list str) :
  forall (seen : list str) (u t : pool),
    pool_inv n (u ++ t) ->
    (forall x, In x (OrderedDict.values t) <-> In x seen) ->
    NoDup ws -> List.length ws <= n ->
    (forall x, In x (seen ++ gs) -> x <> [] /\ In x ws) ->
    exists u' t',
      touch_all gs (u ++ t) = u' ++ t'
      /\ (forall x, In x (OrderedDict.values t') <-> In x (rev gs ++ seen)).
Proof.
  induction gs as [|g gs IH]; intros seen u t Hinv Hseen Hws Hlen Hin.
  - exists u, t. split; [reflexivity | exact Hseen].
  - destruct (lru_touch_recent ws seen n g u t Hinv Hseen Hws Hlen)
      as (u1 & t1 & E1 & S1).
    + intros x Hx. apply Hin. apply in_or_app. left. exact Hx.
    + apply (Hin g). apply in_or_app. right. left. reflexivity.
    + apply (Hin g). apply in_or_app. right. left. reflexivity.
    + pose proof (lru_touch_inv _ g _ Hinv) as Hinv1. rewrite E1 in Hinv1.
      destruct (IH (g :: seen) u1 t1 Hinv1 S1 Hws Hlen) as (u2 & t2 & E2 & S2).
      * intros x Hx. apply Hin. apply in_app_or in Hx.
        apply in_or_app. simpl in *. tauto.
      * exists u2, t2. split.
        -- unfold touch_all in *. cbn [fold_left]. rewrite E1. exact E2.
        -- intros x. rewrite S2. cbn [rev]. rewrite <- app_assoc. reflexivity.
Qed.

(** Characters of a working set that fits in the pool stay resident. *)
Lemma touch_all_working_set (ws : list str) (n : nat) (gs : list str)
  (d : pool) :
  pool_inv n d ->
  NoDup ws -> List.length ws <= n ->
  (forall g, In g gs -> g <> [] /\ In g ws) ->
  forall g, In g gs -> In g (OrderedDict.values (touch_all gs d)).
Proof.
  intros Hinv Hws Hlen Hin g Hg.
  destruct (touch_all_recent ws n gs [] d []) as (u & t & E & S).
  - rewrite app_nil_r. exact Hinv.
  - intros x. simpl. tauto.
  - exact Hws.
  - exact Hlen.
  - exact Hin.
  - rewrite app_nil_r in E. rewrite E, values_app, in_app_iff. right.
    apply S. rewrite app_nil_r, <- in_rev. exact Hg.
Qed.

(** X10. If the characters referenced through the double-byte pool are
    at most as many as the pool has slots, none of them is evicted:
    after the references every one of them is resident. *)
Theorem accesses_working_set (ext : Externals) (font : string)
  (size ax ay : Z) (ws gs : list str) (n : nat) (self : TM88IV) :
  pool_inv n (_gaiji_areas self) ->
  NoDup ws -> List.length ws <= n ->
  (forall g, In g gs -> g <> [] /\ In g ws) ->
  forall g, In g gs ->
    In g (OrderedDict.values
            (_gaiji_areas (accesses ext font size ax ay gs self)))
    /\ exists k,
         snd (_define_gaiji ext g font size ax ay false
                (accesses ext font size ax ay gs self))
         = Ok (_c1 self ++ k)
         /\ log (fst (_define_gaiji ext g font size ax ay false
                        (accesses ext font size ax ay gs self)))
            = log (accesses ext font size ax ay gs self).
Proof.
  intros Hinv Hws Hlen Hin g Hg.
  destruct (accesses_inv ext font size ax ay gs n self Hinv) as [Hinv' Hc].
  assert (R : In g (OrderedDict.values
                      (_gaiji_areas (accesses ext font size ax ay gs self)))).
  { rewrite (accesses_pool ext font size ax ay gs n self Hinv).
    exact (touch_all_working_set ws n gs _ Hinv Hws Hlen Hin g Hg). }
  split; [exact R|].
  destruct (find_gaiji_resident _ _ R) as [k F].
  exists k.
  rewrite _define_gaiji_double by exact (inv_slots _ _ Hinv').
  rewrite F, Hc. split; reflexivity.
Qed.

Lemma accesses_working_set_witness :
  In [0x4E02%N]
    (OrderedDict.values
       (_gaiji_areas
          (accesses blank_ext "NotoSansJP-Medium.otf" 24 0 (-8)
             [[0x4E02%N]; [0x4FF1%N]; [0x4E02%N]; [0x525D%N]; [0x4FF1%N]]
             three_slot_printer))).
Proof.
  refine (proj1 (accesses_working_set blank_ext "NotoSansJP-Medium.otf" 24 0
                   (-8) [[0x4E02%N]; [0x4FF1%N]; [0x525D%N]]
                   [[0x4E02%N]; [0x4FF1%N]; [0x4E02%N]; [0x525D%N];
                    [0x4FF1%N]] 3 three_slot_printer _ _ _ _ [0x4E02%N] _)).
  - constructor.
    + reflexivity.
    + apply distinctb_NoDup. vm_compute. reflexivity.
    + vm_compute. constructor.
  - repeat constructor; simpl; intuition discriminate.
  - simpl. lia.
  - intros g Hg. simpl in Hg.
    repeat (destruct Hg as [<-|Hg]; [split; [discriminate | simpl; tauto]|]).
    contradiction.
  - left. reflexivity.
Defined.

(** ** Texts whose glyphs are resident *)

Lemma draw_count_attr (dw dh underline wbreverse bflg : bool) :
  draw_count (attr_set dw dh underline wbreverse bflg) = 0
  /\ draw_count (attr_clear dw dh underline wbreverse bflg) = 0.
Proof.
  unfold attr_set, attr_clear.
  destruct (dw || dh || underline), bflg, wbreverse; split; reflexivity.
Qed.

Lemma lru_touch_hit_Permutation (g : str) (d : pool) :
  NoDup (OrderedDict.keys d) ->
  In g (OrderedDict.values d) ->
  Permutation d (lru_touch g d).
Proof.
  intros Hk Hin. destruct (find_gaiji_resident _ _ Hin) as [k F].
  destruct (find_gaiji_Some _ _ _ F) as (d1 & d2 & -> & Hn).
  destruct (lru_touch_hit _ _ _ _ Hk Hn) as [_ ->].
  apply Permutation_app_head. apply Permutation_cons_append.
Qed.

(** The pool after the loop: the custom characters were referenced in
    the order of the text. *)
Lemma jptext2_loop_pool (ext : Externals) (text : str) :
  forall self,
    NoDup (OrderedDict.keys (_gaiji_areas self)) ->
    _gaiji_areas (fst (for_each (map (fun c => [c]) text) (jptext2_char ext)
                         self))
    = touch_all (custom_chars (config self) text) (_gaiji_areas self).
Proof.
  induction text as [|c text IH]; intros self Hk; [reflexivity|].
  cbn [map for_each]. unfold bind.
  destruct (jptext2_char_extends ext [c] self Hk) as (R & _ & E).
  assert (P : _gaiji_areas (fst (jptext2_char ext [c] self))
              = if builtin_char (config self) [c] then _gaiji_areas self
                else lru_touch [c] (_gaiji_areas self)).
  { rewrite jptext2_char_rule. unfold char_rule.
    destruct (builtin_char (config self) [c]); [reflexivity|].
    destruct (contains (_jis_x_0212 (config self)) [c]
              || contains (_jis_x_0213 (config self)) [c]);
      [|destruct (is_emoji ext [c])];
      cbn [classification_of]; rewrite emit_custom_effect by exact Hk;
      (destruct (find_gaiji [c] (_gaiji_areas self)) as [k|] eqn:F;
       [reflexivity|]);
      (destruct (_gaiji_areas self) as [|[k v] d] eqn:Hd;
       [unfold lru_touch; rewrite F; exact Hd | reflexivity]). }
  destruct (jptext2_char ext [c] self) as [s1 r1]. cbn [fst snd] in R, E, P.
  subst r1.
  rewrite IH by exact (Permutation_NoDup (ext_gaiji_keys _ _ E) Hk).
  rewrite (ext_config _ _ E), P.
  unfold custom_chars. cbn [map filter].
  destruct (builtin_char (config self) [c]); reflexivity.
Qed.

Lemma jptext2_loop_resident (ext : Externals) (cs : list str) :
  forall self,
    NoDup (OrderedDict.keys (_gaiji_areas self)) ->
    (forall c, In c cs ->
       builtin_char (config self) c = true
       \/ In c (OrderedDict.values (_gaiji_areas self))) ->
    let self' := fst (for_each cs (jptext2_char ext) self) in
    draw_count (log self') = draw_count (log self)
    /\ _font_cache self' = _font_cache self
    /\ Permutation (_gaiji_areas self) (_gaiji_areas self').
Proof.
  induction cs as [|c cs IH]; intros self Hk H; cbv zeta.
  - cbn [for_each ret fst]. repeat split. reflexivity.
  - cbn [for_each]. unfold bind.
    destruct (jptext2_char_extends ext c self Hk) as (R & _ & E).
    assert (P : draw_count (log (fst (jptext2_char ext c self)))
                = draw_count (log self)
                /\ _font_cache (fst (jptext2_char ext c self))
                   = _font_cache self
                /\ Permutation (_gaiji_areas self)
                     (_gaiji_areas (fst (jptext2_char ext c self)))).
    { rewrite jptext2_char_rule. unfold char_rule.
      destruct (builtin_char (config self) c) eqn:B.
      - cbn [classification_of emit_classified]. unfold _raw, emit.
        cbn [fst log with_log _font_cache _gaiji_areas].
        rewrite draw_count_app. cbn [draw_count].
        repeat split; [lia | reflexivity].
      - destruct (H c (or_introl eq_refl)) as [B'|Hin]; [congruence|].
        destruct (find_gaiji_resident _ _ Hin) as [k F].
        pose proof (lru_touch_hit_Permutation c _ Hk Hin) as Pm.
        destruct (contains (_jis_x_0212 (config self)) c
                  || contains (_jis_x_0213 (config self)) c);
          [|destruct (is_emoji ext c)];
          cbn [classification_of]; rewrite emit_custom_effect by exact Hk;
          rewrite F;
          cbn [fst log with_log with_gaiji_areas _font_cache _gaiji_areas];
          rewrite draw_count_app; cbn [draw_count];
          (split; [lia | split; [reflexivity | exact Pm]]). }
    destruct P as (P1 & P2 & P3).
    destruct (jptext2_char ext c self) as [s1 r1].
    cbn [fst snd] in R, E, P1, P2, P3. subst r1.
    destruct (IH s1) as (Q1 & Q2 & Q3).
    + exact (Permutation_NoDup (ext_gaiji_keys _ _ E) Hk).
    + intros c' Hc'. rewrite (ext_config _ _ E).
      destruct (H c' (or_intror Hc')) as [B|Hin]; [left; exact B|].
      right. unfold OrderedDict.values.
      exact (Permutation_in _ (Permutation_map snd P3) Hin).
    + split; [congruence|]. split; [congruence|].
      exact (Permutation_trans P3 Q3).
Qed.

Lemma jptext2_resident (ext : Externals) (text : str)
  (dw dh underline wbreverse bflg : bool) (self : TM88IV) :
  NoDup (OrderedDict.keys (_gaiji_areas self)) ->
  (forall c, In c text ->
     builtin_char (config self) [c] = true
     \/ In [c] (OrderedDict.values (_gaiji_areas self))) ->
  draw_count
    (log (fst (jptext2 ext text dw dh underline wbreverse bflg self)))
  = draw_count (log self)
  /\ _font_cache (fst (jptext2 ext text dw dh underline wbreverse bflg self))
     = _font_cache self
  /\ Permutation (_gaiji_areas self)
       (_gaiji_areas
          (fst (jptext2 ext text dw dh underline wbreverse bflg self))).
Proof.
  intros Hk H. rewrite jptext2_unfold.
  set (s0 := with_log (log self ++ attr_set dw dh underline wbreverse bflg)
               self).
  destruct (jptext2_loop_resident ext (map (fun c => [c]) text) s0 Hk)
    as (Q1 & Q2 & Q3).
  { intros c Hc. apply in_map_iff in Hc. destruct Hc as (c0 & <- & Hc0).
    exact (H c0 Hc0). }
  destruct (jptext2_loop_extends ext (map (fun c => [c]) text) s0 Hk)
    as (R & _ & _).
  destruct (for_each _ _ s0) as [s1 r1]. cbn [fst snd] in *. subst r1.
  cbn [fst log with_log _font_cache _gaiji_areas].
  rewrite draw_count_app, (proj2 (draw_count_attr _ _ _ _ _)), Q1.
  subst s0. cbn [log with_log]. rewrite draw_count_app.
  rewrite (proj1 (draw_count_attr _ _ _ _ _)).
  split; [lia|]. split; assumption.
Qed.

(** X11. A text whose characters are all built in or resident in the
    double-byte pool is printed without rasterising anything and without
    loading a font; the pool keeps its slots and occupants, only their
    order changes. *)
Theorem jptext2_resident_text (ext : Externals) (text : str)
  (dw dh underline wbreverse bflg : bool) (self : TM88IV) :
  NoDup (OrderedDict.keys (_gaiji_areas self)) ->
  (forall c, In c text ->
     builtin_char (config self) [c] = true
     \/ In [c] (OrderedDict.values (_gaiji_areas self))) ->
  let self' := fst (jptext2 ext text dw dh underline wbreverse bflg self) in
  draw_count (log self') = draw_count (log self)
  /\ _font_cache self' = _font_cache self
  /\ Permutation (_gaiji_areas self) (_gaiji_areas self').
Proof.
  intros Hk H. cbv zeta.
  exact (jptext2_resident ext text dw dh underline wbreverse bflg self Hk H).
Qed.

Lemma jptext2_resident_text_witness :
  draw_count
    (log (fst (jptext2 blank_ext [0x4E02%N; 0x41%N; 0x525D%N] true true false
                 false false full_three_slot_printer)))
  = 0.
Proof.
  refine (proj1 (jptext2_resident_text blank_ext [0x4E02%N; 0x41%N; 0x525D%N]
                   true true false false false full_three_slot_printer _ _)).
  - apply distinctb_NoDup. vm_compute. reflexivity.
  - intros c [<-|[<-|[<-|[]]]]; [right|left|right]; vm_compute; tauto.
Defined.

(** X12. Printing a text a second time rasterises nothing, whatever the
    attributes of the two calls, when the characters of the text that
    are not built in are at most as many as the double-byte pool has
    slots. *)
Theorem jptext2_twice (ext : Externals) (text : str) (ws : list str)
  (n : nat) (dw dh underline wbreverse bflg : bool)
  (dw' dh' underline' wbreverse' bflg' : bool) (self : TM88IV) :
  pool_inv n (_gaiji_areas self) ->
  NoDup ws -> List.length ws <= n ->
  (forall c, In c text -> builtin_char (config self) [c] = false ->
             In [c] ws) ->
  let once := fst (jptext2 ext text dw dh underline wbreverse bflg self) in
  let twice :=
    fst (jptext2 ext text dw' dh' underline' wbreverse' bflg' once) in
  draw_count (log twice) = draw_count (log once)
  /\ _font_cache twice = _font_cache once.
Proof.
  intros Hinv Hws Hlen H. cbv zeta.
  pose proof (inv_slots _ _ Hinv) as Hk.
  destruct (jptext2_extends ext text dw dh underline wbreverse bflg self Hk)
    as (_ & _ & [C _ _ _ G]).
  assert (P : _gaiji_areas
                (fst (jptext2 ext text dw dh underline wbreverse bflg self))
              = touch_all (custom_chars (config self) text)
                  (_gaiji_areas self)).
  { rewrite jptext2_unfold.
    pose proof (jptext2_loop_pool ext text
                  (with_log (log self
                             ++ attr_set dw dh underline wbreverse bflg) self)
                  Hk) as L.
    destruct (for_each _ _ _) as [s1 [[]|e]]; exact L. }
  destruct (jptext2_resident ext text dw' dh' underline' wbreverse' bflg'
              (fst (jptext2 ext text dw dh underline wbreverse bflg self)))
    as (D & F & _).
  - exact (Permutation_NoDup G Hk).
  - intros c Hc. rewrite C.
    destruct (builtin_char (config self) [c]) eqn:B; [left; reflexivity|].
    right. rewrite P.
    apply (touch_all_working_set ws n _ _ Hinv Hws Hlen).
    + intros g Hg. unfold custom_chars in Hg. apply filter_In in Hg.
      destruct Hg as [Hg Bg]. apply in_map_iff in Hg.
      destruct Hg as (c0 & <- & Hc0). split; [discriminate|].
      apply H; [exact Hc0|]. apply negb_true_iff in Bg. exact Bg.
    + unfold custom_chars. apply filter_In. split.
      * exact (in_map (fun c0 => [c0]) text c Hc).
      * rewrite B. reflexivity.
  - split; assumption.
Qed.

Lemma jptext2_twice_witness :
  draw_count
    (log (fst (jptext2 blank_ext [0x4E02%N; 0x41%N; 0x4E02%N] false false
                 false false false
                 (fst (jptext2 blank_ext [0x4E02%N; 0x41%N; 0x4E02%N] false
                         false true false false three_slot_printer)))))
  = draw_count
      (log (fst (jptext2 blank_ext [0x4E02%N; 0x41%N; 0x4E02%N] false false
                   true false false three_slot_printer))).
Proof.
  refine (proj1 (jptext2_twice blank_ext [0x4E02%N; 0x41%N; 0x4E02%N]
                   [[0x4E02%N]] 3 false false true false false false false
                   false false false three_slot_printer _ _ _ _)).
  - constructor.
    + reflexivity.
    + apply distinctb_NoDup. vm_compute. reflexivity.
    + vm_compute. constructor.
  - repeat constructor. intros [].
  - simpl. lia.
  - intros c [<-|[<-|[<-|[]]]] B; try (left; reflexivity).
    vm_compute in B. discriminate.
Defined.

(** ** The constructor and the tables *)

Module SetupFacts.

Import Setup.

Lemma check_required_files_spec (w : World) (files : list string) :
  match check_required_files w files with
  | Ok _ => forall f, In f files -> path_exists w f = true
  | Raise e =>
      exists pre f post,
        files = pre ++ f :: post
        /\ (forall g, In g pre -> path_exists w g = true)
        /\ path_exists w f = false
        /\ e = FileNotFoundError f
  end.
Proof.
  induction files as [|file files IH]; cbn [check_required_files].
  - intros f [].
  - destruct (path_exists w file) eqn:E; cbn [negb].
    + destruct (check_required_files w files) as [[]|e].
      * intros f [<-|Hf]; [exact E | exact (IH f Hf)].
      * destruct IH as (pre & f & post & -> & Hpre & Hf & ->).
        exists (file :: pre), f, post. repeat split; try assumption.
        intros g [<-|Hg]; [exact E | exact (Hpre g Hg)].
    + exists [], file, files. repeat split; try assumption. intros g [].
Qed.



Lemma row_entry_functional (w : World) (col : nat) (row ch ch' : str) :
  row_entry w col row ch -> row_entry w col row ch' -> ch = ch'.
Proof.
  intros (f & n & Hf & Hn & _ & ->) (f' & n' & Hf' & Hn' & _ & ->).
  congruence.
Qed.

Lemma load_row_data (w : World) (col : nat) (row : str) (table : list str) :
  data_row row = true ->
  match load_row w col row table with
  | Ok table' => exists ch, table' = table ++ [ch] /\ row_entry w col row ch
  | Raise e =>
      (e = IndexError /\ List.length (split 9%N row) <= col)
      \/ (exists field,
            nth_error (split 9%N row) col = Some field
            /\ ((e = ValueError /\ int16 w field = None)
                \/ exists n,
                     int16 w field = Some n
                     /\ ~ (0 <= n <= 0x10FFFF)%Z
                     /\ (e = ValueError \/ e = OverflowError)))
  end.
Proof.
  intros D. unfold load_row. destruct row as [|r0 row]; [discriminate|].
  cbn [data_row] in D. rewrite D.
  destruct (nth_error (split 9%N (r0 :: row)) col) as [c|] eqn:E.
  - destruct (int16 w c) as [n|] eqn:En.
    + unfold chr.
      destruct (Z.leb 0 n && Z.leb n 1114111) eqn:R; cbn [rbind].
      * exists [Z.to_N n]. split; [reflexivity|].
        exists c, n. apply andb_true_iff in R. destruct R as [R1 R2].
        apply Z.leb_le in R1, R2. repeat split; assumption.
      * assert (Hr : ~ (0 <= n <= 1114111)%Z).
        { intros [R1 R2]. apply Z.leb_le in R1, R2.
          rewrite R1, R2 in R. discriminate. }
        destruct (Z.leb (- 2 ^ 31) n && Z.ltb n (2 ^ 31));
          right; exists c; (split; [reflexivity|]); right; exists n; auto.
    + right. exists c. split; [reflexivity|]. left.
      split; [reflexivity | exact En].
  - left. split; [reflexivity|]. apply nth_error_None. exact E.
Qed.

Lemma load_row_comment (w : World) (col : nat) (row : str)
  (table : list str) :
  row <> [] -> data_row row = false -> load_row w col row table = Ok table.
Proof.
  intros Hne D. unfold load_row. destruct row as [|r0 row]; [congruence|].
  cbn [data_row] in D. rewrite D. reflexivity.
Qed.

Lemma load_rows_entries (w : World) (col : nat) (rows : list str) :
  forall table table',
    load_rows w col rows table = Ok table' ->
    exists added,
      table' = table ++ added
      /\ Forall2 (row_entry w col) (filter data_row rows) added.
Proof.
  induction rows as [|row rows IH]; intros table table' H.
  - cbn [load_rows] in H. injection H as <-. exists [].
    rewrite app_nil_r. split; [reflexivity | constructor].
  - cbn [load_rows filter] in *.
    destruct (data_row row) eqn:D.
    + pose proof (load_row_data w col row table D) as L.
      destruct (load_row w col row table) as [t1|e]; [|discriminate H].
      cbn [rbind] in H. destruct L as (ch & -> & Hch).
      destruct (IH _ _ H) as (added & -> & F).
      exists (ch :: added). split.
      * rewrite <- app_assoc. reflexivity.
      * constructor; assumption.
    + destruct row as [|r0 row]; [discriminate H|].
      rewrite load_row_comment in H by (congruence || exact D).
      cbn [rbind] in H. exact (IH _ _ H).
Qed.

Lemma Forall2_In_r {A B} (R : A -> B -> Prop) (l : list A) (l' : list B) :
  Forall2 R l l' -> forall y, In y l' -> exists x, In x l /\ R x y.
Proof.
  induction 1 as [|x y0 l l' Hxy _ IH]; intros y Hy; [destruct Hy|].
  destruct Hy as [<-|Hy].
  - exists x. split; [left; reflexivity | exact Hxy].
  - destruct (IH y Hy) as (x' & Hx' & Hr). exists x'. split; [right|]; auto.
Qed.

Lemma Forall2_In_l {A B} (R : A -> B -> Prop) (l : list A) (l' : list B) :
  Forall2 R l l' -> forall x, In x l -> exists y, In y l' /\ R x y.
Proof.
  induction 1 as [|x0 y l l' Hxy _ IH]; intros x Hx; [destruct Hx|].
  destruct Hx as [<-|Hx].
  - exists y. split; [left; reflexivity | exact Hxy].
  - destruct (IH x Hx) as (y' & Hy' & Hr). exists y'. split; [right|]; auto.
Qed.

Lemma load_table_listed (w : World) (col : nat) (file : string)
  (table : list str) :
  load_table w col file = Ok table ->
  Forall2 (row_entry w col) (filter data_row (file_rows w file)) table
  /\ (forall ch, In ch table <-> listed w col file ch).
Proof.
  intros H. unfold load_table in H.
  destruct (load_rows_entries w col _ _ _ H) as (added & -> & F).
  cbn [app]. split; [exact F|].
  intros ch. unfold listed. split.
  - intros Hin. destruct (Forall2_In_r _ _ _ F ch Hin) as (row & Hrow & R).
    apply filter_In in Hrow. destruct Hrow as [Hrow D].
    exists row. repeat split; assumption.
  - intros (row & Hrow & D & R).
    destruct (Forall2_In_l _ _ _ F row) as (y & Hy & Ry).
    { apply filter_In. split; assumption. }
    rewrite (row_entry_functional w col row ch y R Ry). exact Hy.
Qed.

(** X14. When a table file loads, the table holds one character per
    row that does not start with '#', in the order of the file: the
    character whose code [int(field, 16)] gives for the field of the
    Unicode column (fields are separated by tabs). Rows that start with
    '#' contribute nothing, whatever they contain. *)
Theorem load_table_entries (w : World) (col : nat) (file : string)
  (table : list str) :
  load_table w col file = Ok table ->
  Forall2 (row_entry w col) (filter data_row (file_rows w file)) table
  /\ List.length table = List.length (filter data_row (file_rows w file))
  /\ (forall ch,
        In ch table
        <-> exists row,
              In row (file_rows w file) /\ data_row row = true
              /\ row_entry w col row ch)
  /\ (forall row,
        In row (file_rows w file) -> data_row row = false -> row <> [] ->
        forall t, load_row w col row t = Ok t).
Proof.
  intros H. destruct (load_table_listed w col file table H) as [F L].
  split; [exact F|]. split; [symmetry; exact (Forall2_length F)|].
  split; [exact L|].
  intros row _ D Hne t. apply load_row_comment; assumption.
Qed.

Lemma load_table_entries_witness :
  load_table (sample_world false) 1 "JIS0201.TXT" = Ok [[0xA5%N]]
  /\ Forall2 (row_entry (sample_world false) 1)
       (filter data_row (file_rows (sample_world false) "JIS0201.TXT"))
       [[0xA5%N]].
Proof.
  split; [vm_compute; reflexivity|].
  refine (proj1 (load_table_entries (sample_world false) 1 "JIS0201.TXT"
                   [[0xA5%N]] _)).
  vm_compute. reflexivity.
Defined.

Lemma load_rows_app (w : World) (col : nat) (rows1 rows2 : list str) :
  forall table,
    load_rows w col (rows1 ++ rows2) table
    = rbind (load_rows w col rows1 table) (load_rows w col rows2).
Proof.
  induction rows1 as [|row rows1 IH]; intros table; [reflexivity|].
  cbn [app load_rows].
  destruct (load_row w col row table) as [t|e]; cbn [rbind];
    [apply IH | reflexivity].
Qed.

(** X15. A row that does not start with '#' and has no field in the
    Unicode column - a blank line, for one - makes the load raise
    IndexError, whatever follows it, and so does an empty row; a field
    that [int] rejects raises ValueError. The constructor then fails
    after the three commands of [__init__] were sent. *)
Theorem load_table_bad_row (w : World) (col : nat) (file : string)
  (before after : list str) (row : str) (table : list str) :
  file_rows w file = before ++ row :: after ->
  load_rows w col before [] = Ok table ->
  (row = [] \/ (data_row row = true /\ List.length (split 9%N row) <= col) ->
   load_table w col file = Raise IndexError)
  /\ (forall field,
        data_row row = true ->
        nth_error (split 9%N row) col = Some field ->
        int16 w field = None ->
        load_table w col file = Raise ValueError)
  /\ (1 <= col -> row = blank_row -> load_table w col file = Raise IndexError)
  /\ (forall config e,
        (forall f, In f (required_files config) -> path_exists w f = true) ->
        file = get (jis0201_file config) "JIS0201.TXT"%string ->
        col = 1 ->
        load_table w col file = Raise e ->
        TM88IV_init w config
        = Failed e
            [ Raw [x1b; "t"%byte; x01]; Raw [x1c; "&"%byte];
              Raw [x1c; "C"%byte; x01] ]).
Proof.
  intros Hrows Hbefore.
  assert (E : load_table w col file
              = rbind (load_row w col row table) (load_rows w col after)).
  { unfold load_table. rewrite Hrows, load_rows_app, Hbefore. reflexivity. }
  assert (Short : data_row row = true -> List.length (split 9%N row) <= col ->
                  load_table w col file = Raise IndexError).
  { intros D L. rewrite E. unfold load_row.
    destruct row as [|r0 row']; [reflexivity|]. cbn [data_row] in D.
    rewrite D. apply nth_error_None in L. rewrite L. reflexivity. }
  split; [|split; [|split]].
  - intros [->|[D L]]; [rewrite E; reflexivity | exact (Short D L)].
  - intros field D Hf Hi. rewrite E. unfold load_row.
    destruct row as [|r0 row']; [discriminate D|]. cbn [data_row] in D.
    rewrite D, Hf, Hi. reflexivity.
  - intros Hc ->. apply Short; [reflexivity | exact Hc].
  - intros config e Hall -> -> He. unfold TM88IV_init.
    pose proof (check_required_files_spec w (required_files config)) as S.
    destruct (check_required_files w (required_files config)) as [[]|e'].
    + unfold _load_jis_character_set. rewrite He. reflexivity.
    + destruct S as (pre & f' & post & Ef & _ & Hf & _).
      rewrite (Hall f') in Hf; [discriminate|].
      rewrite Ef. apply in_or_app. right. left. reflexivity.
Qed.

Lemma load_table_bad_row_witness :
  TM88IV_init (sample_world true)
    (mkConfigDict None None None None None None None None None None None None
       None None None None)
  = Failed IndexError
      [ Raw [x1b; "t"%byte; x01]; Raw [x1c; "&"%byte];
        Raw [x1c; "C"%byte; x01] ].
Proof.
  destruct (load_table_bad_row (sample_world true) 1 "JIS0201.TXT"
              sample_rows_0201 [] blank_row [[0xA5%N]] eq_refl eq_refl)
    as (_ & _ & Hblank & Hinit).
  apply Hinit; [|reflexivity|reflexivity|].
  - intros f Hf. simpl in Hf.
    repeat (destruct Hf as [<-|Hf]; [reflexivity|]). contradiction.
  - apply Hblank; [lia | reflexivity].
Defined.

(** X16. In a printer the constructor returns, the tables are those of
    the files: a string is in a table exactly when a row of its file
    that does not start with '#' gives it, from the second column for
    JIS X 0201, 0212 and 0213 and from the third for JIS X 0208. The
    printer is one reached from [__init__], so its pools are the unused
    pools of 95 and 94 slots. *)
Theorem init_tables_from_files (ext : Externals) (w : World)
  (cd : ConfigDict) (self : TM88IV) :
  TM88IV_init w cd = Constructed self ->
  reachable ext self
  /\ (forall c,
        In c (_jis_x_0201 (config self))
        <-> listed w 1 (get (jis0201_file cd) "JIS0201.TXT"%string) c)
  /\ (forall c,
        In c (_jis_x_0208 (config self))
        <-> listed w 2 (get (jis0208_file cd) "JIS0208.TXT"%string) c)
  /\ (forall c,
        In c (_jis_x_0212 (config self))
        <-> listed w 1 (get (jis0212_file cd) "JIS0212.TXT"%string) c)
  /\ (forall c,
        In c (_jis_x_0213 (config self))
        <-> listed w 1 (get (jis0213_file cd) "JIS0213-2004.TXT"%string) c)
  /\ _user_areas self = map (fun k => (k, [])) USER_AREAS_ASCII
  /\ _gaiji_areas self = map (fun k => (k, [])) USER_KANJI_AREAS_SJIS.
Proof.
  intros H. unfold TM88IV_init in H.
  destruct (check_required_files w (required_files cd)) as [[]|e];
    [|discriminate H].
  unfold _load_jis_character_set in H.
  destruct (load_table w 1 (get (jis0201_file cd) "JIS0201.TXT"%string))
    as [t1|e1] eqn:E1; [|discriminate H].
  destruct (load_table w 2 (get (jis0208_file cd) "JIS0208.TXT"%string))
    as [t2|e2] eqn:E2; [|discriminate H].
  destruct (load_table w 1 (get (jis0212_file cd) "JIS0212.TXT"%string))
    as [t3|e3] eqn:E3; [|discriminate H].
  destruct (load_table w 1 (get (jis0213_file cd) "JIS0213-2004.TXT"%string))
    as [t4|e4] eqn:E4; [|discriminate H].
  cbn [rbind] in H. injection H as <-.
  split; [apply reach_init|].
  cbn [config _jis_x_0201 _jis_x_0208 _jis_x_0212 _jis_x_0213].
  split; [exact (proj2 (load_table_listed _ _ _ _ E1))|].
  split; [exact (proj2 (load_table_listed _ _ _ _ E2))|].
  split; [exact (proj2 (load_table_listed _ _ _ _ E3))|].
  split; [exact (proj2 (load_table_listed _ _ _ _ E4))|].
  apply __init___pools.
Qed.

Lemma init_tables_from_files_witness :
  exists self,
    TM88IV_init (sample_world false)
      (mkConfigDict None None None None None None None None None None None
         None None None None None) = Constructed self
    /\ forall c,
         In c (_jis_x_0201 (config self))
         <-> listed (sample_world false) 1 "JIS0201.TXT" c.
Proof.
  eexists. split; [vm_compute; reflexivity|].
  apply (init_tables_from_files blank_ext (sample_world false)
           (mkConfigDict None None None None None None None None None None
              None None None None None None)).
  vm_compute. reflexivity.
Defined.

End SetupFacts.
